(** * Rekapi 0.8.6: the keyframe timeline engine

    A shallow embedding of [dist/rekapi.js] (the [Kapi] engine, [Kapi.Actor]
    and [Kapi.KeyframeProperty]) and the properties of the timeline that the
    specification states about it.

    JavaScript objects that the program shares by reference (actors, keyframe
    properties) live in stores and are named by the identifier the program
    itself gives them; every method is a function on the store. *)

From Stdlib Require Import ZArith Lia.
From stdpp Require Import base option list gmap strings sorting.

Local Open Scope Z_scope.

(** ** Numbers

    Milliseconds and timestamps are integers.  The engine's arithmetic can
    moreover leave the integers: [Math.max] of no arguments is [-Infinity],
    a division by zero is infinite or [NaN]. *)

Inductive number : Type :=
  | Fin (z : Z)
  | NegInfinity
  | PosInfinity
  | NaN.

Global Instance number_eq_dec : EqDecision number.
Proof. solve_decision. Defined.

Global Instance number_inhabited : Inhabited number := populate (Fin 0).

(** [Math.max(a, b)]. *)
Definition number_max (a b : number) : number :=
  match a, b with
  | NaN, _ | _, NaN => NaN
  | PosInfinity, _ | _, PosInfinity => PosInfinity
  | NegInfinity, c | c, NegInfinity => c
  | Fin x, Fin y => Fin (Z.max x y)
  end.

(** [Math.max.apply(Math, array)]: the fold starts from [-Infinity]. *)
Definition Math_max (array : list Z) : number :=
  foldl (fun acc x => number_max acc (Fin x)) NegInfinity array.

(** [Math.min.apply(Math, array)] on a non-empty array of integers. *)
Definition Math_min (array : list Z) : number :=
  match array with
  | [] => PosInfinity
  | x :: rest => Fin (foldl Z.min x rest)
  end.

(** [Math.floor(a / b)] for an integer [a].  A finite number over an
    infinite one is a zero; the sign of a zero is not observed below, so both
    zeros are [Fin 0]. *)
Definition floor_div (a : Z) (b : number) : number :=
  match b with
  | Fin 0 => if 0 <? a then PosInfinity else if a <? 0 then NegInfinity else NaN
  | Fin d => Fin (a / d)
  | NegInfinity | PosInfinity => Fin 0
  | NaN => NaN
  end.

(** [a % b] for an integer [a]: the sign follows the dividend. *)
Definition remainder (a : Z) (b : number) : number :=
  match b with
  | Fin 0 => NaN
  | Fin d => Fin (Z.rem a d)
  | NegInfinity | PosInfinity => Fin a
  | NaN => NaN
  end.

(** [a >= b] and [a <= b] against an integer; every comparison with [NaN]
    is false. *)
Definition number_ge (a : number) (b : Z) : bool :=
  match a with
  | Fin x => b <=? x
  | PosInfinity => true
  | NegInfinity | NaN => false
  end.

Definition number_le (a : number) (b : Z) : bool :=
  match a with
  | Fin x => x <=? b
  | NegInfinity => true
  | PosInfinity | NaN => false
  end.

(** ** Underscore helpers *)

(** [_.sortBy(list, key)]: ascending by [key], stable. *)
Fixpoint insertBy {A : Type} (key : A -> Z) (x : A) (l : list A) : list A :=
  match l with
  | [] => [x]
  | y :: rest => if key x <=? key y then x :: y :: rest
                 else y :: insertBy key x rest
  end.

Definition sortBy {A : Type} (key : A -> Z) (l : list A) : list A :=
  foldr (insertBy key) [] l.

(** [sortNumerically]: [array.sort(function (a, b) { return a - b; })]. *)
Definition sortNumerically (array : list Z) : list Z :=
  sortBy (fun a => a) array.

(** ** The Shifty collaborator

    [Kapi.Actor] inherits from Shifty's [Tweenable], and
    [KeyframeProperty.getValueAt] delegates to [Tweenable.util.interpolate].
    Shifty is not part of the engine: it is an interface here. *)

Class Shifty : Type := {
  (** what a keyframe pins on a track *)
  Value : Type;
  (** the result of dividing two millisecond counts *)
  Fraction : Type;
  divide : Z -> Z -> Fraction;
  (** [interpolate name from to position easing] is the [name] field of
      [Tweenable.util.interpolate(fromObj, toObj, position, easing)], where
      [fromObj] and [toObj] hold the one field [name], set to [from] and to
      [to] *)
  interpolate : string -> Value -> Value -> Fraction -> string -> Value;
  (** the state a [Tweenable] instance keeps in [this._state] *)
  Tweenable : Type;
  Tweenable_new : Tweenable;
  Tweenable_set : Tweenable -> gmap string Value -> Tweenable;
  Tweenable_get : Tweenable -> gmap string Value;
  isTweening : Tweenable -> bool;
  isPaused : Tweenable -> bool;
  Tweenable_pause : Tweenable -> Tweenable;
  Tweenable_resume : Tweenable -> Tweenable;
  Tweenable_stop : Tweenable -> Tweenable;
}.

Definition DEFAULT_EASING : string := "linear".

(** ** Kapi.KeyframeProperty *)

Section KeyframeProperty.
Context `{Shifty}.

(** [id] is the counter part of [_.uniqueId('keyframeProperty_')];
    [nextProperty] and [ownerActor] are references. *)
Record KeyframeProperty : Type := mkKeyframeProperty {
  kp_id : nat;
  ownerActor : nat;
  millisecond : Z;
  name : string;
  value : Value;
  easing : string;
  nextProperty : option nat;
}.

(** The argument of [modifyWith]: a field left out is [undefined]. *)
Record Modification : Type := mkModification {
  new_millisecond : option Z;
  new_easing : option string;
  new_value : option Value;
}.

(** [new Kapi.KeyframeProperty(ownerActor, millisecond, name, value,
    opt_easing)], with the id already drawn. *)
Definition newKeyframeProperty (uid owner : nat) (ms : Z) (nm : string)
    (v : Value) (opt_easing : string) : KeyframeProperty :=
  {| kp_id := uid; ownerActor := owner; millisecond := ms; name := nm;
     value := v;
     easing := if decide (opt_easing = "") then DEFAULT_EASING else opt_easing;
     nextProperty := None |}.

Definition modifyWith (p : KeyframeProperty) (newProperties : Modification)
    : KeyframeProperty :=
  {| kp_id := kp_id p; ownerActor := ownerActor p;
     millisecond := default (millisecond p) (new_millisecond newProperties);
     name := name p;
     value := default (value p) (new_value newProperties);
     easing := default (easing p) (new_easing newProperties);
     nextProperty := nextProperty p |}.

Definition linkToNext (p : KeyframeProperty) (next : option nat)
    : KeyframeProperty :=
  {| kp_id := kp_id p; ownerActor := ownerActor p;
     millisecond := millisecond p; name := name p; value := value p;
     easing := easing p; nextProperty := next |}.

(** The object [this.nextProperty] refers to, in the store of keyframe
    properties. *)
Definition successor (store : gmap nat KeyframeProperty)
    (p : KeyframeProperty) : option KeyframeProperty :=
  r ← nextProperty p; store !! r.

Definition getValueAt (store : gmap nat KeyframeProperty)
    (p : KeyframeProperty) (ms : Z) : Value :=
  match successor store p with
  | Some next =>
      let delta := millisecond next - millisecond p in
      let interpolatedPosition := divide (ms - millisecond p) delta in
      interpolate (name p) (value p) (value next) interpolatedPosition
        (easing next)
  | None => value p
  end.

End KeyframeProperty.

(** ** Kapi.Actor: the part that needs no engine *)

Section Actor.
Context `{Shifty}.

(** [properties] is the store of the keyframe property objects this actor
    created; tracks, caches and the registry [_keyframeProperties] hold
    references into it.  [kapi] tells whether the [kapi] back-reference is
    set.  The registry is in insertion order. *)
Record Actor : Type := mkActor {
  _state : Tweenable;
  _context : option nat;
  _propertyTracks : gmap string (list nat);
  _timelinePropertyCaches : gmap Z (gmap string (option nat));
  _timelinePropertyCacheIndex : list Z;
  _keyframeProperties : list nat;
  actor_id : nat;
  kapi : bool;
  fps : option Z;
  properties : gmap nat KeyframeProperty;
}.

Definition with_state (a : Actor) (st : Tweenable) : Actor :=
  mkActor st (_context a) (_propertyTracks a) (_timelinePropertyCaches a)
    (_timelinePropertyCacheIndex a) (_keyframeProperties a) (actor_id a)
    (kapi a) (fps a) (properties a).

Definition with_propertyTracks (a : Actor) (t : gmap string (list nat))
    : Actor :=
  mkActor (_state a) (_context a) t (_timelinePropertyCaches a)
    (_timelinePropertyCacheIndex a) (_keyframeProperties a) (actor_id a)
    (kapi a) (fps a) (properties a).

Definition with_caches (a : Actor) (c : gmap Z (gmap string (option nat)))
    (index : list Z) : Actor :=
  mkActor (_state a) (_context a) (_propertyTracks a) c index
    (_keyframeProperties a) (actor_id a) (kapi a) (fps a) (properties a).

Definition with_keyframeProperties (a : Actor) (registry : list nat)
    : Actor :=
  mkActor (_state a) (_context a) (_propertyTracks a)
    (_timelinePropertyCaches a) (_timelinePropertyCacheIndex a) registry
    (actor_id a) (kapi a) (fps a) (properties a).

Definition with_properties (a : Actor) (store : gmap nat KeyframeProperty)
    : Actor :=
  mkActor (_state a) (_context a) (_propertyTracks a)
    (_timelinePropertyCaches a) (_timelinePropertyCacheIndex a)
    (_keyframeProperties a) (actor_id a) (kapi a) (fps a) store.

Definition with_engine (a : Actor) (ctx : option nat) (attached : bool)
    (rate : option Z) : Actor :=
  mkActor (_state a) ctx (_propertyTracks a) (_timelinePropertyCaches a)
    (_timelinePropertyCacheIndex a) (_keyframeProperties a) (actor_id a)
    attached rate (properties a).

(** [new Kapi.Actor()], with the id already drawn. *)
Definition newActor (uid : nat) : Actor :=
  mkActor Tweenable_new None ∅ ∅ [] [] uid false None ∅.

(** [keyframeProperty.millisecond] through a reference. *)
Definition millisecondOf (a : Actor) (r : nat) : Z :=
  from_option millisecond 0 (properties a !! r).

Definition sortPropertyTracks (a : Actor) : Actor :=
  with_propertyTracks a (sortBy (millisecondOf a) <$> _propertyTracks a).

(** The [_.find] loop of [getLatestPropeties] on one track.  [previous] is
    [previousKeyframeProperty]; [latest] is [latestProperties[propertyName]]:
    [None] while it was never assigned, [Some None] once it holds [null]. *)
Fixpoint findLatest (a : Actor) (track : list nat) (forMillisecond : Z)
    (previous : option nat) (latest : option (option nat))
    : option (option nat) :=
  match track with
  | [] => latest
  | r :: rest =>
      let latest' :=
        if forMillisecond <? millisecondOf a r then Some previous
        else if millisecondOf a r =? forMillisecond then Some (Some r)
        else latest in
      match latest' with
      | Some (Some _) => latest'
      | _ => findLatest a rest forMillisecond (Some r) latest'
      end
  end.

Definition latestInTrack (a : Actor) (forMillisecond : Z)
    (track : list nat) : option (option nat) :=
  match findLatest a track forMillisecond None None with
  | Some (Some r) => Some (Some r)
  | unset =>
      match last track with
      | Some lastProp =>
          if millisecondOf a lastProp <=? forMillisecond
          then Some (Some lastProp) else unset
      | None => unset
      end
  end.

Definition getLatestPropeties (a : Actor) (forMillisecond : Z)
    : gmap string (option nat) :=
  omap (latestInTrack a forMillisecond) (_propertyTracks a).

(** [_.defaults(object, source)]: a field of [source] is copied where
    [object] has [undefined] or [null]. *)
Definition defaults (object source : gmap string (option nat))
    : gmap string (option nat) :=
  merge (fun o s =>
           match o, s with
           | Some (Some r), _ => Some (Some r)
           | _, Some v => Some v
           | _, None => o
           end) object source.

Definition cachePropertiesToSegments (a : Actor) : Actor :=
  with_caches a
    (map_imap (fun cacheId propertyCache =>
                 Some (defaults propertyCache (getLatestPropeties a cacheId)))
       (_timelinePropertyCaches a))
    (_timelinePropertyCacheIndex a).

(** [linkTrackedProperties] on one track: entry [i] is linked to entry
    [i + 1], the last one to [null]. *)
Fixpoint linkTrack (track : list nat) (store : gmap nat KeyframeProperty)
    : gmap nat KeyframeProperty :=
  match track with
  | [] => store
  | r :: rest =>
      linkTrack rest (alter (fun p => linkToNext p (head rest)) r store)
  end.

Definition linkTrackedProperties (a : Actor) : Actor :=
  with_properties a
    (map_fold (fun _ track store => linkTrack track store) (properties a)
       (_propertyTracks a)).

Definition findPropertyAtMillisecondInTrack (a : Actor) (trackName : string)
    (ms : Z) : option nat :=
  track ← _propertyTracks a !! trackName;
  list_find (fun r => millisecondOf a r = ms) track ≫= fun ir => Some ir.2.

Definition getKeyframeProperty (a : Actor) (property : string) (index : nat)
    : option nat :=
  track ← _propertyTracks a !! property; track !! index.

Definition getTrackNames (a : Actor) : list string :=
  (map_to_list (_propertyTracks a)).*1.

Definition getTrackLength (a : Actor) (trackName : string) : option nat :=
  length <$> _propertyTracks a !! trackName.

Definition getStart (a : Actor) : Z :=
  let starts :=
    omap (fun track => millisecondOf a <$> head track)
      (map_to_list (_propertyTracks a)).*2 in
  match Math_min (if decide (starts = []) then [0] else starts) with
  | Fin z => z
  | _ => 0
  end.

Definition getEnd (a : Actor) : Z :=
  map_fold (fun _ propertyTrack latest =>
              match last propertyTrack with
              | Some r =>
                  let trackLength := millisecondOf a r in
                  if latest <? trackLength then trackLength else latest
              | None => latest
              end) 0 (_propertyTracks a).

Definition getLength (a : Actor) : Z := getEnd a - getStart a.

(** [invalidatePropertyCache]: the buckets are filled from the registry, the
    index is the sorted list of their keys, every bucket is completed with
    the latest properties and the tracks are linked again. *)
Definition fillCaches (a : Actor) : gmap Z (gmap string (option nat)) :=
  foldl (fun caches r =>
           match properties a !! r with
           | Some p =>
               <[millisecond p :=
                   <[name p := Some r]> (default ∅ (caches !! millisecond p))]>
                 caches
           | None => caches
           end) ∅ (_keyframeProperties a).

Definition invalidatePropertyCache (a : Actor) : Actor :=
  let caches := fillCaches a in
  let index := sortNumerically (map_to_list caches).*1 in
  linkTrackedProperties (cachePropertiesToSegments (with_caches a caches index)).

(** The loop of [getPropertyCacheIdForMillisecond], entered at index [i] with
    [list] the entries from [i] on. *)
Fixpoint cacheIdLoop (list : list Z) (i : Z) (ms : Z) : Z :=
  match list with
  | [] => -1
  | x :: rest => if ms <=? x then i - 1 else cacheIdLoop rest (i + 1) ms
  end.

Definition getPropertyCacheIdForMillisecond (a : Actor) (ms : Z) : Z :=
  cacheIdLoop (drop 1 (_timelinePropertyCacheIndex a)) 1 ms.

(** [array[i]] for an integer [i]: [undefined] out of range. *)
Definition at_index {A : Type} (array : list A) (i : Z) : option A :=
  if i <? 0 then None else array !! Z.to_nat i.

(** The bucket [calculatePosition] reads, and the object it passes to
    [this.set]. *)
Definition propertiesToInterpolate (a : Actor) (ms : Z)
    : option (gmap string (option nat)) :=
  cacheKey ← at_index (_timelinePropertyCacheIndex a)
              (getPropertyCacheIdForMillisecond a ms);
  _timelinePropertyCaches a !! cacheKey.

Definition interpolatedObject (a : Actor) (ms : Z) : gmap string Value :=
  omap (fun entry : option nat =>
          r ← entry; p ← properties a !! r;
          Some (getValueAt (properties a) p ms))
    (default ∅ (propertiesToInterpolate a ms)).

Definition calculatePosition (a : Actor) (ms : number) : Actor :=
  match ms with
  | Fin m =>
      if (getStart a <=? m) && (m <=? getEnd a)
      then with_state a (Tweenable_set (_state a) (interpolatedObject a m))
      else a
  | _ => a
  end.

(** The body of the loop of [keyframe] for one entry of [position]. *)
Definition addKeyframeProperty (a : Actor) (uid : nat) (when : Z)
    (nm : string) (v : Value) (opt_easing : string) : Actor :=
  let newKeyframeProperty :=
    newKeyframeProperty uid (actor_id a) when nm v opt_easing in
  let a1 :=
    with_keyframeProperties
      (with_properties a (<[uid := newKeyframeProperty]> (properties a)))
      (_keyframeProperties a ++ [uid]) in
  let track := default [] (_propertyTracks a1 !! nm) in
  sortPropertyTracks
    (with_propertyTracks a1 (<[nm := track ++ [uid]]> (_propertyTracks a1))).

(** The loop of [removeKeyframe] on one track: the first entry at [when] is
    spliced out. *)
Fixpoint spliceAt (a : Actor) (when : Z) (track : list nat)
    : list nat * option nat :=
  match track with
  | [] => ([], None)
  | r :: rest =>
      if millisecondOf a r =? when then (rest, Some r)
      else let '(rest', removed) := spliceAt a when rest in
           (r :: rest', removed)
  end.

Definition removeKeyframeProperties (a : Actor) (when : Z) : Actor :=
  let removed :=
    omap (fun track => (spliceAt a when track).2)
      (map_to_list (_propertyTracks a)).*2 in
  with_keyframeProperties
    (with_propertyTracks a
       ((fun track => (spliceAt a when track).1) <$> _propertyTracks a))
    (filter (fun r => r ∉ removed) (_keyframeProperties a)).

End Actor.

(** ** Kapi: the engine, and the world it runs in *)

Inductive playState : Type := STOPPED | PAUSED | PLAYING.

Global Instance playState_eq_dec : EqDecision playState.
Proof. solve_decision. Defined.

Inductive exception : Type := TypeError | ReferenceError.

Global Instance exception_eq_dec : EqDecision exception.
Proof. solve_decision. Defined.

(** How a call ends.  A call that throws keeps the changes it made before. *)
Inductive completion : Type :=
  | Returned
  | Thrown (e : exception).

Global Instance completion_eq_dec : EqDecision completion.
Proof. solve_decision. Defined.

Section Kapi.
Context `{Shifty}.

(** What the engine hands to code it does not own: event handlers and the
    actors' [setup], [render] and [teardown] callbacks. *)
Inductive Event : Type :=
  | Fired (eventName : string) (handlers : list nat)
  | Setup (actor : nat)
  | Teardown (actor : nat)
  | Render (actor : nat) (state : gmap string Value).

(** [_actors] holds the keys of the JavaScript object: the value under key
    [i] is the actor whose id is [i].  Timestamps start as [null]. *)
Record Kapi : Type := mkKapi {
  config_fps : Z;
  context : option nat;
  _actors : gset nat;
  _drawOrder : list nat;
  _playState : playState;
  _events : gmap string (list nat);
  _timesToIterate : Z;
  _animationLength : number;
  _loopId : option nat;
  _loopTimestamp : option Z;
  _pausedAtTime : option Z;
  _lastRenderedMillisecond : number;
}.

Definition with_actors (k : Kapi) (ids : gset nat) (order : list nat)
    : Kapi :=
  mkKapi (config_fps k) (context k) ids order (_playState k) (_events k)
    (_timesToIterate k) (_animationLength k) (_loopId k) (_loopTimestamp k)
    (_pausedAtTime k) (_lastRenderedMillisecond k).

Definition with_playState (k : Kapi) (st : playState) : Kapi :=
  mkKapi (config_fps k) (context k) (_actors k) (_drawOrder k) st (_events k)
    (_timesToIterate k) (_animationLength k) (_loopId k) (_loopTimestamp k)
    (_pausedAtTime k) (_lastRenderedMillisecond k).

Definition with_events (k : Kapi) (ev : gmap string (list nat)) : Kapi :=
  mkKapi (config_fps k) (context k) (_actors k) (_drawOrder k) (_playState k)
    ev (_timesToIterate k) (_animationLength k) (_loopId k)
    (_loopTimestamp k) (_pausedAtTime k) (_lastRenderedMillisecond k).

Definition with_timesToIterate (k : Kapi) (n : Z) : Kapi :=
  mkKapi (config_fps k) (context k) (_actors k) (_drawOrder k) (_playState k)
    (_events k) n (_animationLength k) (_loopId k) (_loopTimestamp k)
    (_pausedAtTime k) (_lastRenderedMillisecond k).

Definition with_animationLength (k : Kapi) (len : number) : Kapi :=
  mkKapi (config_fps k) (context k) (_actors k) (_drawOrder k) (_playState k)
    (_events k) (_timesToIterate k) len (_loopId k) (_loopTimestamp k)
    (_pausedAtTime k) (_lastRenderedMillisecond k).

Definition with_loopId (k : Kapi) (timer : option nat) : Kapi :=
  mkKapi (config_fps k) (context k) (_actors k) (_drawOrder k) (_playState k)
    (_events k) (_timesToIterate k) (_animationLength k) timer
    (_loopTimestamp k) (_pausedAtTime k) (_lastRenderedMillisecond k).

Definition with_loopTimestamp (k : Kapi) (t : option Z) : Kapi :=
  mkKapi (config_fps k) (context k) (_actors k) (_drawOrder k) (_playState k)
    (_events k) (_timesToIterate k) (_animationLength k) (_loopId k) t
    (_pausedAtTime k) (_lastRenderedMillisecond k).

Definition with_pausedAtTime (k : Kapi) (t : option Z) : Kapi :=
  mkKapi (config_fps k) (context k) (_actors k) (_drawOrder k) (_playState k)
    (_events k) (_timesToIterate k) (_animationLength k) (_loopId k)
    (_loopTimestamp k) t (_lastRenderedMillisecond k).

Definition with_lastRenderedMillisecond (k : Kapi) (ms : number) : Kapi :=
  mkKapi (config_fps k) (context k) (_actors k) (_drawOrder k) (_playState k)
    (_events k) (_timesToIterate k) (_animationLength k) (_loopId k)
    (_loopTimestamp k) (_pausedAtTime k) ms.

Definition eventNames : list string :=
  ["onFrameRender"; "onAnimationComplete"; "onPlayStateChange"; "onPlay";
   "onPause"; "onStop"; "onBeforeDraw"].

(** [new Kapi(opt_config)]: [fps] defaults to 60. *)
Definition newKapi (opt_fps : option Z) (opt_context : option nat) : Kapi :=
  mkKapi (default 60 opt_fps) opt_context ∅ [] STOPPED
    (list_to_map ((fun n => (n, [])) <$> eventNames)) (-1) (Fin 0) None None
    None (Fin 0).

(** One engine, the actors that were constructed (attached to it or not), the
    counters behind [getUniqueActorId] and [_.uniqueId], the updates that are
    scheduled and not cancelled, and what went out to foreign code. *)
Record World : Type := mkWorld {
  engine : Kapi;
  actors : gmap nat Actor;
  actorCount : nat;
  idCounter : nat;
  timers : gset nat;
  timerCount : nat;
  trace : list Event;
}.

Definition newWorld (opt_fps : option Z) (opt_context : option nat) : World :=
  mkWorld (newKapi opt_fps opt_context) ∅ 0 0 ∅ 0 [].

Definition with_engine_of (w : World) (k : Kapi) : World :=
  mkWorld k (actors w) (actorCount w) (idCounter w) (timers w) (timerCount w)
    (trace w).

Definition with_actors_of (w : World) (store : gmap nat Actor) : World :=
  mkWorld (engine w) store (actorCount w) (idCounter w) (timers w)
    (timerCount w) (trace w).

Definition with_idCounter (w : World) (n : nat) : World :=
  mkWorld (engine w) (actors w) (actorCount w) n (timers w) (timerCount w)
    (trace w).

Definition with_timers (w : World) (live : gset nat) (n : nat) : World :=
  mkWorld (engine w) (actors w) (actorCount w) (idCounter w) live n (trace w).

Definition emit (w : World) (e : Event) : World :=
  mkWorld (engine w) (actors w) (actorCount w) (idCounter w) (timers w)
    (timerCount w) (trace w ++ [e]).

(** [_.each(this._actors, f)]. *)
Definition eachActor (f : Actor -> Actor) (w : World) : World :=
  with_actors_of w
    (map_imap (fun i a =>
                 Some (if decide (i ∈ _actors (engine w)) then f a else a))
       (actors w)).

(** [new Kapi.Actor(opt_config)].  The id is drawn before [opt_config.context]
    is looked at; with a context the constructor reads the undeclared
    variable [opt_context]. *)
Definition Actor_new (w : World) (config_context : option nat)
    : World * option nat * completion :=
  let uid := actorCount w in
  let w1 :=
    mkWorld (engine w) (actors w) (S uid) (idCounter w) (timers w)
      (timerCount w) (trace w) in
  match config_context with
  | Some _ => (w1, None, Thrown ReferenceError)
  | None =>
      (with_actors_of w1 (<[uid := newActor uid]> (actors w1)), Some uid,
       Returned)
  end.

Definition fireEvent (w : World) (eventName : string) : World :=
  emit w (Fired eventName (default [] (_events (engine w) !! eventName))).

(** [tick]: the next update is scheduled and its id kept in [_loopId]. *)
Definition tick (w : World) : World :=
  let timer := timerCount w in
  with_engine_of (with_timers w ({[timer]} ∪ timers w) (S timer))
    (with_loopId (engine w) (Some timer)).

Definition cancelLoop (w : World) : World :=
  match _loopId (engine w) with
  | Some timer => with_timers w (timers w ∖ {[timer]}) (timerCount w)
  | None => w
  end.

(** [null] as a number. *)
Definition toNumber (t : option Z) : Z := default 0 t.

Definition calculateTimeSinceStart (w : World) (now : Z) : Z :=
  now - toNumber (_loopTimestamp (engine w)).

Definition determineCurrentLoopIteration (k : Kapi) (timeSinceStart : Z)
    : number :=
  floor_div timeSinceStart (_animationLength k).

Definition isAnimationComplete (k : Kapi) (currentLoopIteration : number)
    : bool :=
  number_ge currentLoopIteration (_timesToIterate k)
  && negb (_timesToIterate k =? -1).

Definition calculateLoopPosition (k : Kapi) (forMillisecond : Z)
    (currentLoopIteration : number) : number :=
  if isAnimationComplete k currentLoopIteration then _animationLength k
  else remainder forMillisecond (_animationLength k).

Definition _recalculateAnimationLength (w : World) : World :=
  let actorLengths :=
    omap (fun i => getEnd <$> actors w !! i) (elements (_actors (engine w))) in
  with_engine_of w (with_animationLength (engine w) (Math_max actorLengths)).

(** Sequencing of calls that may throw. *)
Definition andThen (r : World * completion)
    (f : World -> World * completion) : World * completion :=
  match r with
  | (w, Returned) => f w
  | (w, Thrown e) => (w, Thrown e)
  end.

Notation "r >>> f" := (andThen r f) (at level 61, left associativity).

Definition ret (w : World) : World * completion := (w, Returned).

(** [this._actors[id]], an object or [undefined]. *)
Definition getActor (w : World) (actorId : nat) : option Actor :=
  if decide (actorId ∈ _actors (engine w)) then actors w !! actorId else None.

Definition addActor (w : World) (actor : nat) : World * completion :=
  match actors w !! actor with
  | None => (w, Thrown TypeError)
  | Some a =>
      if decide (actor ∈ _actors (engine w)) then ret w
      else
        let k := engine w in
        let ctx := if _context a is Some c then Some c else context k in
        let a' := with_engine a ctx true (Some (config_fps k)) in
        let w1 :=
          with_engine_of (with_actors_of w (<[actor := a']> (actors w)))
            (with_actors k ({[actor]} ∪ _actors k) (_drawOrder k ++ [actor])) in
        ret (emit w1 (Setup actor))
  end.

Definition removeActor (w : World) (actor : nat) : World * completion :=
  match actors w !! actor with
  | None => (w, Thrown TypeError)
  | Some a =>
      let k := engine w in
      let a' := with_engine a (_context a) false (fps a) in
      let w1 :=
        with_engine_of (with_actors_of w (<[actor := a']> (actors w)))
          (with_actors k (_actors k ∖ {[actor]})
             (filter (fun i => i ≠ actor) (_drawOrder k))) in
      ret (_recalculateAnimationLength (emit w1 (Teardown actor)))
  end.

Definition play (w : World) (opt_howManyTimes : option Z) (now : Z) : World :=
  let w1 := cancelLoop w in
  let k := engine w1 in
  let loopTimestamp :=
    if decide (_playState k = PAUSED)
    then toNumber (_loopTimestamp k) + (now - toNumber (_pausedAtTime k))
    else now in
  let timesToIterate :=
    match opt_howManyTimes with
    | Some n => if n =? 0 then -1 else n
    | None => -1
    end in
  let k1 :=
    with_playState
      (with_timesToIterate (with_loopTimestamp k (Some loopTimestamp))
         timesToIterate) PLAYING in
  let w2 := tick (with_engine_of w1 k1) in
  let w3 :=
    eachActor (fun a =>
                 if isPaused (_state a)
                 then with_state a (Tweenable_resume (_state a)) else a) w2 in
  fireEvent (fireEvent w3 "onPlayStateChange") "onPlay".

(** [playFrom] reads the clock a second time, after [play] has. *)
Definition playFrom (w : World) (ms : Z) (opt_howManyTimes : option Z)
    (now now' : Z) : World :=
  let w1 := play w opt_howManyTimes now in
  with_engine_of w1 (with_loopTimestamp (engine w1) (Some (now' - ms))).

Definition pause (w : World) (now : Z) : World :=
  if decide (_playState (engine w) = PAUSED) then w
  else
    let w1 := with_engine_of w (with_playState (engine w) PAUSED) in
    let w2 := cancelLoop w1 in
    let w3 := with_engine_of w2 (with_pausedAtTime (engine w2) (Some now)) in
    let w4 :=
      eachActor (fun a =>
                   if isTweening (_state a)
                   then with_state a (Tweenable_pause (_state a)) else a) w3 in
    fireEvent (fireEvent w4 "onPlayStateChange") "onPause".

Definition stop (w : World) : World :=
  let w1 := with_engine_of w (with_playState (engine w) STOPPED) in
  let w2 := cancelLoop w1 in
  let w3 := eachActor (fun a => with_state a (Tweenable_stop (_state a))) w2 in
  fireEvent (fireEvent w3 "onPlayStateChange") "onStop".

Definition isPlaying (w : World) : bool :=
  bool_decide (_playState (engine w) = PLAYING).

Definition animationLength (w : World) : number :=
  _animationLength (engine w).

Definition actorCount_of (w : World) : nat := length (_drawOrder (engine w)).

(** The loop of [calculateActorPositions] over [_drawOrder]: an id without an
    actor under [_actors] ends it with a [TypeError]. *)
Fixpoint calculateActorPositions_from (order : list nat) (ms : number)
    (w : World) : World * completion :=
  match order with
  | [] => ret w
  | i :: rest =>
      match getActor w i with
      | Some a =>
          calculateActorPositions_from rest ms
            (with_actors_of w (<[i := calculatePosition a ms]> (actors w)))
      | None => (w, Thrown TypeError)
      end
  end.

Definition calculateActorPositions (w : World) (ms : number)
    : World * completion :=
  calculateActorPositions_from (_drawOrder (engine w)) ms w.

Fixpoint draw_from (order : list nat) (w : World) : World * completion :=
  match order with
  | [] => ret w
  | i :: rest =>
      match getActor w i with
      | Some a => draw_from rest (emit w (Render i (Tweenable_get (_state a))))
      | None => (w, Thrown TypeError)
      end
  end.

(** [draw], with [_drawOrderSorter] at its initial [null]. *)
Definition draw (w : World) : World * completion :=
  draw_from (_drawOrder (engine w)) (fireEvent w "onBeforeDraw").

Definition render (w : World) (ms : number) : World * completion :=
  calculateActorPositions w ms >>> draw >>> fun w2 =>
  ret (fireEvent
         (with_engine_of w2 (with_lastRenderedMillisecond (engine w2) ms))
         "onFrameRender").

Definition updatePlayState (w : World) (currentLoopIteration : number)
    : World :=
  if isAnimationComplete (engine w) currentLoopIteration
  then fireEvent (stop w) "onAnimationComplete"
  else w.

Definition renderMillisecond (w : World) (forMillisecond : Z)
    : World * completion :=
  let currentIteration :=
    determineCurrentLoopIteration (engine w) forMillisecond in
  let loopPosition :=
    calculateLoopPosition (engine w) forMillisecond currentIteration in
  render w loopPosition >>> fun w1 => ret (updatePlayState w1 currentIteration).

Definition renderCurrentMillisecond (w : World) (now : Z)
    : World * completion :=
  renderMillisecond w (calculateTimeSinceStart w now).

(** [updateFn], the callback [tick] schedules, run for [timer] when the
    clock reads [now]; a cancelled timer does not run. *)
Definition updateFn (w : World) (timer : nat) (now : Z)
    : World * completion :=
  if decide (timer ∈ timers w)
  then
    renderCurrentMillisecond
      (tick (with_timers w (timers w ∖ {[timer]}) (timerCount w))) now
  else ret w.

(** [bind] and [unbind]: an unknown event name is left alone. *)
Definition bind (w : World) (eventName : string) (handler : nat) : World :=
  match _events (engine w) !! eventName with
  | Some handlers =>
      with_engine_of w
        (with_events (engine w)
           (<[eventName := handlers ++ [handler]]> (_events (engine w))))
  | None => w
  end.

Definition unbind (w : World) (eventName : string) (opt_handler : option nat)
    : World :=
  match _events (engine w) !! eventName with
  | Some handlers =>
      let handlers' :=
        match opt_handler with
        | Some h => filter (fun h' => h' ≠ h) handlers
        | None => []
        end in
      with_engine_of w
        (with_events (engine w) (<[eventName := handlers']> (_events (engine w))))
  | None => w
  end.

(** ** Kapi.Actor: the methods that reach the engine *)

(** The [opt_easing] argument of [keyframe]. *)
Inductive Easing : Type :=
  | EasingUndefined
  | EasingString (s : string)
  | EasingObject (byName : gmap string string).

Definition orDefault (s : string) : string :=
  if decide (s = "") then DEFAULT_EASING else s.

(** [opt_easing[name]] once [keyframe] has normalised [opt_easing]. *)
Definition easingFor (opt_easing : Easing) (nm : string) : string :=
  match opt_easing with
  | EasingUndefined => DEFAULT_EASING
  | EasingString s => orDefault (orDefault s)
  | EasingObject byName => from_option orDefault DEFAULT_EASING (byName !! nm)
  end.

(** The [_.each(position, ...)] loop of [keyframe]; ids come from
    [_.uniqueId]. *)
Definition keyframeProperties (a : Actor) (uid : nat) (when : Z)
    (position : list (string * Value)) (opt_easing : Easing) : Actor * nat :=
  foldl (fun '(a', uid') '(nm, v) =>
           (addKeyframeProperty a' uid' when nm v (easingFor opt_easing nm),
            S uid'))
    (a, uid) position.

(** [this.kapi._recalculateAnimationLength()] for [actor]: without [kapi] the
    method is looked up on [undefined]. *)
Definition recalculateThroughActor (actor : nat) (w : World)
    : World * completion :=
  match actors w !! actor with
  | Some a =>
      if kapi a then ret (_recalculateAnimationLength w)
      else (w, Thrown TypeError)
  | None => (w, Thrown TypeError)
  end.

Definition onActor (f : Actor -> Actor) (actor : nat) (w : World) : World :=
  with_actors_of w (alter f actor (actors w)).

Definition keyframe (w : World) (actor : nat) (when : Z)
    (position : list (string * Value)) (opt_easing : Easing)
    : World * completion :=
  match actors w !! actor with
  | None => (w, Thrown TypeError)
  | Some a =>
      let '(a', uid') :=
        keyframeProperties a (idCounter w) when position opt_easing in
      ret (with_idCounter (with_actors_of w (<[actor := a']> (actors w))) uid')
      >>> recalculateThroughActor actor
      >>> fun w2 => ret (onActor invalidatePropertyCache actor w2)
  end.

Definition modifyKeyframeProperty (w : World) (actor : nat)
    (property : string) (index : nat) (newProperties : option Modification)
    : World * completion :=
  match actors w !! actor with
  | None => (w, Thrown TypeError)
  | Some a =>
      match getKeyframeProperty a property index, newProperties with
      | Some _, None => (w, Thrown TypeError)
      | found, _ =>
          let a1 :=
            match found, newProperties with
            | Some r, Some modification =>
                with_properties a
                  (alter (fun p => modifyWith p modification) r (properties a))
            | _, _ => a
            end in
          ret (with_actors_of w
                 (<[actor := invalidatePropertyCache (sortPropertyTracks a1)]>
                    (actors w)))
      end
  end.

Definition removeKeyframe (w : World) (actor : nat) (when : Z)
    : World * completion :=
  match actors w !! actor with
  | None => (w, Thrown TypeError)
  | Some a =>
      ret (with_actors_of w
             (<[actor := removeKeyframeProperties a when]> (actors w)))
      >>> recalculateThroughActor actor
      >>> fun w2 => ret (onActor invalidatePropertyCache actor w2)
  end.

Definition removeAllKeyframeProperties (w : World) (actor : nat)
    : World * completion :=
  match actors w !! actor with
  | None => (w, Thrown TypeError)
  | Some a =>
      let a1 :=
        with_keyframeProperties
          (with_propertyTracks a ((fun _ => []) <$> _propertyTracks a)) [] in
      removeKeyframe (with_actors_of w (<[actor := a1]> (actors w))) actor 0
  end.

End Kapi.

Notation "r >>> f" := (andThen r f) (at level 61, left associativity).

(** ** Sequences of calls, and the properties stated of them *)

Section Calls.
Context `{Shifty}.

(** The three calls that author keyframes, each on an actor. *)
Inductive ActorCall : Type :=
  | CallKeyframe (when : Z) (position : list (string * Value))
      (opt_easing : Easing)
  | CallRemoveKeyframe (when : Z)
  | CallModifyKeyframeProperty (property : string) (index : nat)
      (newProperties : option Modification).

Definition actorCall (w : World) (c : nat * ActorCall) : World * completion :=
  match c.2 with
  | CallKeyframe when position opt_easing =>
      keyframe w c.1 when position opt_easing
  | CallRemoveKeyframe when => removeKeyframe w c.1 when
  | CallModifyKeyframeProperty property index newProperties =>
      modifyKeyframeProperty w c.1 property index newProperties
  end.

(** The calls are made one after the other; one that throws leaves the world
    as it was when it threw, and the next call is made there. *)
Definition actorCalls (w : World) (cs : list (nat * ActorCall)) : World :=
  foldl (fun w' c => (actorCall w' c).1) w cs.

(** Two actors whose keyframe properties sit at the same milliseconds. *)
Definition same_milliseconds (a a' : Actor) : Prop :=
  forall r, millisecondOf a' r = millisecondOf a r.

(** A track is sorted ascending by millisecond. *)
Definition track_sorted (a : Actor) (track : list nat) : Prop :=
  StronglySorted Z.le (millisecondOf a <$> track).

Definition tracks_sorted (a : Actor) : Prop :=
  map_Forall (fun _ track => track_sorted a track) (_propertyTracks a).

Definition world_sorted (w : World) : Prop :=
  map_Forall (fun _ a => tracks_sorted a) (actors w).

Global Instance world_sorted_dec (w : World) : Decision (world_sorted w).
Proof. unfold world_sorted, tracks_sorted, track_sorted. apply _. Defined.

(** The playback controls, with the clock reading each one takes. *)
Inductive EngineCall : Type :=
  | CallPlay (opt_howManyTimes : option Z) (now : Z)
  | CallPause (now : Z)
  | CallStop.

Definition engineCall (w : World) (c : EngineCall) : World :=
  match c with
  | CallPlay opt_howManyTimes now => play w opt_howManyTimes now
  | CallPause now => pause w now
  | CallStop => stop w
  end.

Definition engineCalls (w : World) (cs : list EngineCall) : World :=
  foldl engineCall w cs.

Definition isPause (c : EngineCall) : bool :=
  match c with CallPause _ => true | _ => false end.

(** What the specification says of the play states: [PAUSED] is only entered
    from [PLAYING]. *)
Definition paused_only_from_playing : Prop :=
  forall (cs : list EngineCall) (c : EngineCall),
    _playState (engine (engineCall (engineCalls (newWorld None None) cs) c))
    = PAUSED ->
    _playState (engine (engineCalls (newWorld None None) cs)) <> PAUSED ->
    _playState (engine (engineCalls (newWorld None None) cs)) = PLAYING.

(** The engine's stored length is the greatest [getEnd()] of the attached
    actors. *)
Definition attachedEnds (w : World) : list Z :=
  omap (fun i => getEnd <$> actors w !! i) (elements (_actors (engine w))).

Definition length_current (w : World) : Prop :=
  animationLength w = Math_max (attachedEnds w).

(** The names of the events fired, oldest first. *)
Definition firedNames (events : list Event) : list string :=
  omap (fun ev => match ev with Fired nm _ => Some nm | _ => None end) events.

(** Worlds with the same engine and timers, the second with an actor
    wherever the first has one. *)
Definition same_engine (w w' : World) : Prop :=
  engine w' = engine w /\ timers w' = timers w /\
  forall i, is_Some (getActor w i) -> is_Some (getActor w' i).

(** Every id in the draw order has its actor under [_actors]. *)
Definition drawOrder_attached (w : World) : Prop :=
  Forall (fun i => is_Some (getActor w i)) (_drawOrder (engine w)).

Global Instance drawOrder_attached_dec (w : World) :
  Decision (drawOrder_attached w).
Proof. unfold drawOrder_attached. apply _. Defined.

End Calls.

(** What the specification says of the cache lookup: [r] is the greatest
    index whose key is at most [ms], and -1 exactly when there is no such
    key. *)
Definition greatest_index_at_most (index : list Z) (ms : Z) (r : Z) : Prop :=
  (exists key, at_index index r = Some key /\ key <= ms) /\
  (forall j key, at_index index j = Some key -> key <= ms -> j <= r).

Definition lookup_as_specified (index : list Z) (ms : Z) (r : Z) : Prop :=
  (r = -1 <-> forall key, key ∈ index -> ms < key) /\
  (r <> -1 -> greatest_index_at_most index ms r).

(** What the lookup does: it returns the index before the first key, from
    index 1 on, that is at least [ms], and -1 when there is none. *)
Definition lookup_as_implemented (index : list Z) (ms : Z) (r : Z) : Prop :=
  (r = -1 <->
     forall (i : nat) key, (1 <= i)%nat -> index !! i = Some key -> key < ms) /\
  (r <> -1 ->
     exists (n : nat) upper,
       r = Z.of_nat n /\ index !! S n = Some upper /\ ms <= upper /\
       (forall (i : nat) key,
          index !! i = Some key -> (i <= n)%nat -> (1 <= n)%nat -> key < ms) /\
       (forall (i : nat) key,
          index !! i = Some key -> (n < i)%nat -> ms <= key)).

(** ** The rest of the engine and of the actor *)

Section MoreMethods.
Context `{Shifty}.

(** [array.splice(start, 0, x)]: a negative [start] counts from the end, and
    [start] is clamped to the array. *)
Definition splice_insert {A : Type} (array : list A) (start : Z) (x : A)
    : list A :=
  let len := Z.of_nat (length array) in
  let position :=
    if start <? 0 then Z.max (len + start) 0 else Z.min start len in
  take (Z.to_nat position) array ++ x :: drop (Z.to_nat position) array.

Definition with_drawOrder (w : World) (order : list nat) : World :=
  with_engine_of w (with_actors (engine w) (_actors (engine w)) order).

(** [moveActorToLayer] returns the actor, or [undefined] when [layer] is not
    below the length of the draw order. *)
Definition moveActorToLayer (w : World) (actor : nat) (layer : Z)
    : World * option nat * completion :=
  if layer <? Z.of_nat (length (_drawOrder (engine w))) then
    match actors w !! actor with
    | None => (w, None, Thrown TypeError)
    | Some _ =>
        (with_drawOrder w
           (splice_insert
              (filter (fun i => i ≠ actor) (_drawOrder (engine w))) layer actor),
         Some actor, Returned)
    end
  else (w, None, Returned).

(** [Actor.prototype.moveToLayer]: through [this.kapi]. *)
Definition moveToLayer (w : World) (actor : nat) (layer : Z)
    : World * option nat * completion :=
  match actors w !! actor with
  | Some a =>
      if kapi a then moveActorToLayer w actor layer
      else (w, None, Thrown TypeError)
  | None => (w, None, Thrown TypeError)
  end.

Definition redraw (w : World) : World * completion :=
  render w (_lastRenderedMillisecond (engine w)).

(** The body of the loop of [modifyKeyframe] for one track.  An
    [undefined] [stateModification] is indexed only when the track has a
    property at [when]. *)
Definition modifyKeyframeInTrack (when : Z)
    (stateModification : option (gmap string Value))
    (easingModification : gmap string string) (trackName : string)
    (propertyTrack : list nat) (acc : Actor * completion)
    : Actor * completion :=
  match acc with
  | (a, Returned) =>
      match findPropertyAtMillisecondInTrack a trackName when with
      | Some r =>
          match stateModification with
          | Some state =>
              (with_properties a
                 (alter (fun p =>
                           modifyWith p
                             (mkModification None
                                (easingModification !! trackName)
                                (state !! trackName)))
                    r (properties a)), Returned)
          | None => (a, Thrown TypeError)
          end
      | None => acc
      end
  | thrown => thrown
  end.

Definition modifyKeyframe (w : World) (actor : nat) (when : Z)
    (stateModification : option (gmap string Value))
    (opt_easingModification : option (gmap string string))
    : World * completion :=
  match actors w !! actor with
  | None => (w, Thrown TypeError)
  | Some a =>
      let '(a', result) :=
        map_fold
          (modifyKeyframeInTrack when stateModification
             (default ∅ opt_easingModification))
          (a, Returned) (_propertyTracks a) in
      (with_actors_of w (<[actor := a']> (actors w)), result)
  end.

(** [copyProperties]: the value and easing of the property each track has at
    [copyFrom] are keyframed at [copyTo]. *)
Definition sourceProperties (a : Actor) (copyFrom : Z)
    : gmap string KeyframeProperty :=
  map_imap (fun trackName _ =>
              r ← findPropertyAtMillisecondInTrack a trackName copyFrom;
              properties a !! r)
    (_propertyTracks a).

Definition copyProperties (w : World) (actor : nat) (copyTo copyFrom : Z)
    : World * completion :=
  match actors w !! actor with
  | None => (w, Thrown TypeError)
  | Some a =>
      let found := sourceProperties a copyFrom in
      keyframe w actor copyTo (map_to_list (value <$> found))
        (EasingObject (easing <$> found))
  end.

(** [wait]: the latest properties at the end are read ([latestProp.value]
    throws on a [null] entry), the keyframe at the end is removed, and the
    properties are keyframed at the end and at [until]. *)
Definition latestAtEnd (a : Actor) : option (gmap string KeyframeProperty) :=
  let latestProps := getLatestPropeties a (getEnd a) in
  if decide (map_Forall
               (fun _ entry => is_Some (entry ≫= fun r => properties a !! r))
               latestProps)
  then Some (omap (fun entry => entry ≫= fun r => properties a !! r)
               latestProps)
  else None.

Definition wait (w : World) (actor : nat) (until : Z) : World * completion :=
  match actors w !! actor with
  | None => (w, Thrown TypeError)
  | Some a =>
      if until <=? getEnd a then ret w
      else
        match latestAtEnd a with
        | None => (w, Thrown TypeError)
        | Some latest =>
            let serializedProps := map_to_list (value <$> latest) in
            let serializedEasings := EasingObject (easing <$> latest) in
            removeKeyframe w actor (getEnd a)
            >>> (fun w1 =>
                   keyframe w1 actor (getEnd a) serializedProps
                     serializedEasings)
            >>> (fun w2 =>
                   keyframe w2 actor until serializedProps serializedEasings)
        end
  end.

(** [exportPropertyData] and the two [exportTimeline]. *)
Record PropertyData : Type := mkPropertyData {
  data_id : nat;
  data_millisecond : Z;
  data_name : string;
  data_value : Value;
  data_easing : string;
}.

Definition exportPropertyData (p : KeyframeProperty) : PropertyData :=
  mkPropertyData (kp_id p) (millisecond p) (name p) (value p) (easing p).

Record ActorTimeline : Type := mkActorTimeline {
  export_start : Z;
  export_end : Z;
  export_trackNames : list string;
  export_propertyTracks : gmap string (list PropertyData);
}.

Definition Actor_exportTimeline (a : Actor) : ActorTimeline :=
  mkActorTimeline (getStart a) (getEnd a) (getTrackNames a)
    ((fun track : list nat =>
        omap (fun r => exportPropertyData <$> properties a !! r) track)
       <$> _propertyTracks a).

Record Timeline : Type := mkTimeline {
  export_duration : number;
  export_actorOrder : list nat;
  export_actors : gmap nat ActorTimeline;
}.

Fixpoint exportActors (w : World) (order : list nat)
    (exported : gmap nat ActorTimeline) : option (gmap nat ActorTimeline) :=
  match order with
  | [] => Some exported
  | actorId :: rest =>
      match getActor w actorId with
      | Some a =>
          exportActors w rest (<[actorId := Actor_exportTimeline a]> exported)
      | None => None
      end
  end.

(** [Kapi.prototype.exportTimeline]: [None] when an id of the draw order has
    no actor, where the code throws a [TypeError]. *)
Definition exportTimeline (w : World) : option Timeline :=
  mkTimeline (_animationLength (engine w)) (_drawOrder (engine w))
    <$> exportActors w (_drawOrder (engine w)) ∅.

(** The engine as the scheduler drives it: a playback control, or the update
    a timer runs. *)
Inductive Step : Type :=
  | StepCall (c : EngineCall)
  | StepUpdate (timer : nat) (now : Z).

Definition step (w : World) (s : Step) : World :=
  match s with
  | StepCall c => engineCall w c
  | StepUpdate timer now => (updateFn w timer now).1
  end.

Definition steps (w : World) (ss : list Step) : World := foldl step w ss.

(** At most the update [_loopId] names is scheduled, and it is while the
    engine plays. *)
Definition one_update_scheduled (w : World) : Prop :=
  timers w
  = if decide (_playState (engine w) = PLAYING)
    then from_option singleton ∅ (_loopId (engine w))
    else ∅.

(** An actor's keyframe property objects are in order: every track holds
    objects of the store that carry the track's name, each once; the registry
    holds the objects of the tracks, each once; and every id in the store was
    drawn from the counter. *)
Record actor_wf (counter : nat) (a : Actor) : Prop := mkActor_wf {
  wf_tracks :
    forall nm track, _propertyTracks a !! nm = Some track ->
      NoDup track /\
      forall r, r ∈ track ->
        exists p, properties a !! r = Some p /\ name p = nm;
  wf_registry_NoDup : NoDup (_keyframeProperties a);
  wf_registry :
    forall r, r ∈ _keyframeProperties a <->
      exists nm track, _propertyTracks a !! nm = Some track /\ r ∈ track;
  wf_counter : forall r, is_Some (properties a !! r) -> (r < counter)%nat;
}.

(** Keyframe properties that differ in [nextProperty] at most. *)
Definition same_but_next (p p' : KeyframeProperty) : Prop :=
  p' = linkToNext p (nextProperty p').

Definition world_wf (w : World) : Prop :=
  map_Forall (fun _ a => actor_wf (idCounter w) a) (actors w).

End MoreMethods.


(** ** Every call, one after the other *)

Section AllCalls.
Context `{Shifty}.

(** The calls a program makes on the engine and its actors, and the updates
    its timers run. *)
Inductive Call : Type :=
  | NewActor (config_context : option nat)
  | AddActor (actor : nat)
  | RemoveActor (actor : nat)
  | MoveActorToLayer (actor : nat) (layer : Z)
  | MoveToLayer (actor : nat) (layer : Z)
  | Control (c : EngineCall)
  | PlayFrom (ms : Z) (opt_howManyTimes : option Z) (now now' : Z)
  | Update (timer : nat) (now : Z)
  | RenderAt (ms : number)
  | Redraw
  | Bind (eventName : string) (handler : nat)
  | Unbind (eventName : string) (opt_handler : option nat)
  | Authoring (actor : nat) (c : ActorCall)
  | ModifyKeyframe (actor : nat) (when : Z)
      (stateModification : option (gmap string Value))
      (opt_easingModification : option (gmap string string))
  | RemoveAllKeyframeProperties (actor : nat)
  | CopyProperties (actor : nat) (copyTo copyFrom : Z)
  | Wait (actor : nat) (until : Z)
  | CalculatePosition (actor : nat) (ms : number).

(** The world after a call, whether it returned or threw. *)
Definition call (w : World) (c : Call) : World :=
  match c with
  | NewActor config_context => (Actor_new w config_context).1.1
  | AddActor actor => (addActor w actor).1
  | RemoveActor actor => (removeActor w actor).1
  | MoveActorToLayer actor layer => (moveActorToLayer w actor layer).1.1
  | MoveToLayer actor layer => (moveToLayer w actor layer).1.1
  | Control c => engineCall w c
  | PlayFrom ms opt_howManyTimes now now' =>
      playFrom w ms opt_howManyTimes now now'
  | Update timer now => (updateFn w timer now).1
  | RenderAt ms => (render w ms).1
  | Redraw => (redraw w).1
  | Bind eventName handler => bind w eventName handler
  | Unbind eventName opt_handler => unbind w eventName opt_handler
  | Authoring actor c => (actorCall w (actor, c)).1
  | ModifyKeyframe actor when stateModification opt_easingModification =>
      (modifyKeyframe w actor when stateModification opt_easingModification).1
  | RemoveAllKeyframeProperties actor =>
      (removeAllKeyframeProperties w actor).1
  | CopyProperties actor copyTo copyFrom =>
      (copyProperties w actor copyTo copyFrom).1
  | Wait actor until => (wait w actor until).1
  | CalculatePosition actor ms => onActor (fun a => calculatePosition a ms) actor w
  end.

Definition calls (w : World) (cs : list Call) : World := foldl call w cs.

(** [moveActorToLayer] is the one call that takes an actor the engine may
    not hold and puts its id in the draw order. *)
Definition isMoveActorToLayer (c : Call) : bool :=
  match c with MoveActorToLayer _ _ => true | _ => false end.

(** Actors with the same tracks, registry and keyframe properties (links
    apart), and the same attachment. *)
Definition same_structure (a a' : Actor) : Prop :=
  _propertyTracks a' = _propertyTracks a /\
  _keyframeProperties a' = _keyframeProperties a /\
  properties a' = properties a.

(** A world whose actors kept their structure. *)
Definition same_structures (w w' : World) : Prop :=
  idCounter w' = idCounter w /\
  forall i, option_Forall2 same_structure (actors w !! i) (actors w' !! i).

(** The attachment of the actors to the engine is consistent: the draw order
    lists the ids under [_actors], each once; they are ids of actors that
    were constructed; and an actor has its [kapi] exactly when the engine
    holds it. *)
Record attachment_ok (w : World) : Prop := mkAttachment_ok {
  att_NoDup : NoDup (_drawOrder (engine w));
  att_actors : forall i, i ∈ _drawOrder (engine w) <-> i ∈ _actors (engine w);
  att_exist : forall i, i ∈ _actors (engine w) -> is_Some (actors w !! i);
  att_kapi :
    forall i a, actors w !! i = Some a ->
      (kapi a = true <-> i ∈ _actors (engine w));
  att_count : forall i, is_Some (actors w !! i) -> (i < actorCount w)%nat;
}.

(** What a call that is not about attachment leaves alone. *)
Record keeps_attachment (w w' : World) : Prop := mkKeeps_attachment {
  keeps_actors : _actors (engine w') = _actors (engine w);
  keeps_drawOrder : _drawOrder (engine w') = _drawOrder (engine w);
  keeps_actorCount : actorCount w' = actorCount w;
  keeps_kapi :
    forall i, option_Forall2 (fun a a' => kapi a' = kapi a)
                (actors w !! i) (actors w' !! i);
}.

(** What a call that is not about playback leaves alone. *)
Record keeps_schedule (w w' : World) : Prop := mkKeeps_schedule {
  keeps_timers : timers w' = timers w;
  keeps_playState : _playState (engine w') = _playState (engine w);
  keeps_loopId : _loopId (engine w') = _loopId (engine w);
}.

Definition keeps_length (w w' : World) : Prop :=
  _animationLength (engine w') = _animationLength (engine w).

Definition keeps_all (w w' : World) : Prop :=
  same_structures w w' /\ keeps_attachment w w' /\ keeps_schedule w w' /\
  keeps_length w w'.

(** The playback controls and the update change the schedule only. *)
Definition keeps_content (w w' : World) : Prop :=
  same_structures w w' /\ keeps_attachment w w' /\ keeps_length w w'.

(** The calls that author keyframes change neither attachment nor
    schedule. *)
Definition keeps_engine (w w' : World) : Prop :=
  keeps_attachment w w' /\ keeps_schedule w w'.

(** No update is scheduled, or the one [_loopId] names. *)
Definition timers_bounded (w : World) : Prop :=
  timers w = ∅ \/
  exists timer, _loopId (engine w) = Some timer /\ timers w = {[timer]}.

(** The stored length is 0 or more, or [-Infinity]. *)
Definition length_ok (w : World) : Prop :=
  animationLength w = NegInfinity \/
  exists len, animationLength w = Fin len /\ 0 <= len.

End AllCalls.


(** ** A Shifty for examples: integer values, linear tweens *)

Record LinearTween : Type := mkLinearTween {
  current : gmap string Z;
  tweening : bool;
  paused : bool;
}.

Definition linearShifty : Shifty := {|
  Value := Z;
  Fraction := Z * Z;
  divide a b := (a, b);
  interpolate _ from to position _ :=
    from + (to - from) * position.1 / position.2;
  Tweenable := LinearTween;
  Tweenable_new := mkLinearTween ∅ false false;
  Tweenable_set st state := mkLinearTween state (tweening st) (paused st);
  Tweenable_get := current;
  isTweening := tweening;
  isPaused := paused;
  Tweenable_pause st := mkLinearTween (current st) (tweening st) true;
  Tweenable_resume st := mkLinearTween (current st) (tweening st) false;
  Tweenable_stop st := mkLinearTween (current st) false (paused st);
|}.

Section Examples.
Local Existing Instance linearShifty.

(** An engine with one actor, keyframed on track [x] at 0 and at 1000. *)
Definition oneActor : World :=
  let w := (Actor_new (newWorld None None) None).1.1 in
  (addActor w 0%nat).1.

Definition twoKeyframes : World :=
  let w1 := (keyframe oneActor 0%nat 0 [("x", 0)] EasingUndefined).1 in
  (keyframe w1 0%nat 1000 [("x", 100)] EasingUndefined).1.

(** The actor of [twoKeyframes]. *)
Definition tweened : Actor :=
  default (newActor 0) (actors twoKeyframes !! 0%nat).

(** An actor with the one keyframe [{x: 5}] at 0. *)
Definition singleKeyframe : Actor :=
  default (newActor 0)
    (actors (keyframe oneActor 0%nat 0 [("x", 5)] EasingUndefined).1 !! 0%nat).

(** An actor that was constructed and not added to the engine. *)
Definition unattached : World := (Actor_new (newWorld None None) None).1.1.

(** [twoKeyframes], played at time 100 and paused at time 400. *)
Definition pausedWorld : World := pause (play twoKeyframes None 100) 400.

(** [twoKeyframes], played twice from time 0. *)
Definition playedTwice : World := play twoKeyframes (Some 2) 0.

(** [twoKeyframes] after the keyframe at index 1 of track [x] was moved to
    2000. *)
Definition moved : World :=
  (modifyKeyframeProperty twoKeyframes 0%nat "x" 1
     (Some (mkModification (Some 2000) None None))).1.

(** [twoKeyframes] with a second actor, keyframed up to 2000, that was
    removed from the engine and added again. *)
Definition addedAgain : World :=
  let w1 := (Actor_new twoKeyframes None).1.1 in
  let w2 := (addActor w1 1%nat).1 in
  let w3 := (keyframe w2 1%nat 2000 [("y", 1)] EasingUndefined).1 in
  let w4 := (removeActor w3 1%nat).1 in
  (addActor w4 1%nat).1.

(** Two keyframe properties of one track with different easings. *)
Definition fromProperty : KeyframeProperty :=
  mkKeyframeProperty 0 0 0 "x" 10 "easeInQuad" (Some 1%nat).

Definition toProperty : KeyframeProperty :=
  mkKeyframeProperty 1 0 1000 "x" 30 "bounce" None.

Definition easedStore : gmap nat KeyframeProperty :=
  {[ 0%nat := fromProperty; 1%nat := toProperty ]}.

End Examples.

(** * Properties *)

(** ** Sorting *)

Section Sorting.
Context {A : Type} (key : A -> Z).

Lemma insertBy_Permutation (x : A) (l : list A) :
  insertBy key x l ≡ₚ x :: l.
Proof.
  induction l as [|y l IH]; simpl; [done|].
  destruct (key x <=? key y); [done|].
  rewrite IH. apply Permutation_swap.
Qed.

Lemma sortBy_Permutation (l : list A) : sortBy key l ≡ₚ l.
Proof.
  induction l as [|x l IH]; simpl; [done|].
  fold (sortBy key l). by rewrite insertBy_Permutation, IH.
Qed.

Lemma insertBy_sorted (x : A) (l : list A) :
  StronglySorted Z.le (key <$> l) ->
  StronglySorted Z.le (key <$> insertBy key x l).
Proof.
  induction l as [|y l IH]; simpl; intros Hl.
  - repeat constructor.
  - apply StronglySorted_inv in Hl as [Hl Hy].
    destruct (key x <=? key y) eqn:Hxy; simpl.
    + apply Z.leb_le in Hxy. constructor; [by constructor|].
      constructor; [done|].
      eapply Forall_impl; [exact Hy|]. simpl. lia.
    + apply Z.leb_gt in Hxy. constructor; [by apply IH|].
      rewrite insertBy_Permutation. simpl. constructor; [lia | done].
Qed.

Lemma sortBy_sorted (l : list A) : StronglySorted Z.le (key <$> sortBy key l).
Proof.
  induction l as [|x l IH]; simpl; [constructor|].
  by apply insertBy_sorted.
Qed.

End Sorting.

Lemma sortNumerically_sorted (array : list Z) :
  StronglySorted Z.le (sortNumerically array).
Proof.
  unfold sortNumerically.
  rewrite <- (list_fmap_id (sortBy _ array)). apply sortBy_sorted.
Qed.

Lemma sortNumerically_Permutation (array : list Z) :
  sortNumerically array ≡ₚ array.
Proof. apply sortBy_Permutation. Qed.

(** A sorted list without repetition is strictly ascending. *)
Lemma sorted_NoDup_strict (l : list Z) :
  StronglySorted Z.le l -> NoDup l -> StronglySorted Z.lt l.
Proof.
  induction 1 as [|x l Hl IH Hx]; intros Hnd; [constructor|].
  apply NoDup_cons in Hnd as [Hnotin Hnd].
  constructor; [by apply IH|].
  apply Forall_forall. intros y Hy.
  rewrite Forall_forall in Hx. specialize (Hx y Hy).
  assert (x <> y) by (intros ->; done). lia.
Qed.

(** ** Tracks stay sorted *)

Section TracksSorted.
Context `{Shifty}.

Lemma tracks_sorted_ext (a a' : Actor) :
  same_milliseconds a a' ->
  _propertyTracks a' = _propertyTracks a ->
  tracks_sorted a -> tracks_sorted a'.
Proof.
  intros Hms Htr Ha. unfold tracks_sorted, track_sorted in *.
  rewrite Htr. intros nm track Hnm.
  rewrite (list_fmap_ext _ (millisecondOf a)); [by eapply Ha | auto].
Qed.

Lemma sortPropertyTracks_sorted (a : Actor) :
  tracks_sorted (sortPropertyTracks a).
Proof.
  unfold tracks_sorted, sortPropertyTracks. simpl.
  apply map_Forall_fmap. intros nm track _. simpl.
  apply (sortBy_sorted (millisecondOf a)).
Qed.

Lemma linkTrack_millisecond (track : list nat)
    (store : gmap nat KeyframeProperty) (r : nat) :
  from_option millisecond 0 (linkTrack track store !! r)
  = from_option millisecond 0 (store !! r).
Proof.
  revert store. induction track as [|r' rest IH]; intros store; simpl; [done|].
  rewrite IH. destruct (decide (r' = r)) as [->|Hne].
  - rewrite lookup_alter_eq. by destruct (store !! r).
  - by rewrite lookup_alter_ne.
Qed.

Lemma linkTrackedProperties_milliseconds (a : Actor) :
  same_milliseconds a (linkTrackedProperties a).
Proof.
  intros r. unfold linkTrackedProperties, millisecondOf. simpl.
  apply (map_fold_weak_ind
           (fun store _ =>
              from_option millisecond 0 (store !! r)
              = from_option millisecond 0 (properties a !! r))); [done|].
  intros nm track tracks store _ IH. by rewrite linkTrack_millisecond.
Qed.

Lemma invalidatePropertyCache_tracks (a : Actor) :
  _propertyTracks (invalidatePropertyCache a) = _propertyTracks a.
Proof. done. Qed.

Lemma invalidatePropertyCache_milliseconds (a : Actor) :
  same_milliseconds a (invalidatePropertyCache a).
Proof.
  intros r. unfold invalidatePropertyCache.
  by rewrite linkTrackedProperties_milliseconds.
Qed.

Lemma invalidatePropertyCache_sorted (a : Actor) :
  tracks_sorted a -> tracks_sorted (invalidatePropertyCache a).
Proof.
  apply tracks_sorted_ext;
    [apply invalidatePropertyCache_milliseconds | done].
Qed.

Lemma keyframeProperties_sorted (position : list (string * Value))
    (a : Actor) (uid : nat) (when : Z) (opt_easing : Easing) :
  tracks_sorted a ->
  tracks_sorted (keyframeProperties a uid when position opt_easing).1.
Proof.
  unfold keyframeProperties. revert a uid.
  induction position as [|[nm v] position IH]; intros a uid Ha; simpl; [done|].
  apply IH. apply sortPropertyTracks_sorted.
Qed.

Lemma spliceAt_Forall (P : nat -> Prop) (a : Actor) (when : Z)
    (track : list nat) :
  Forall P track -> Forall P (spliceAt a when track).1.
Proof.
  induction 1 as [|r rest Hr Hrest IH]; simpl; [done|].
  destruct (millisecondOf a r =? when); [done|].
  destruct (spliceAt a when rest) as [rest' removed]. simpl in *.
  by constructor.
Qed.

Lemma spliceAt_sorted (key : nat -> Z) (a : Actor) (when : Z)
    (track : list nat) :
  StronglySorted Z.le (key <$> track) ->
  StronglySorted Z.le (key <$> (spliceAt a when track).1).
Proof.
  induction track as [|r rest IH]; csimpl; intros Hs; [done|].
  apply StronglySorted_inv in Hs as [Hrest Hr].
  destruct (millisecondOf a r =? when); [done|].
  pose proof (spliceAt_Forall (fun r' => key r <= key r') a when rest) as HF.
  destruct (spliceAt a when rest) as [rest' removed]. csimpl in *.
  constructor; [by apply IH|].
  rewrite Forall_fmap in Hr. rewrite Forall_fmap. exact (HF Hr).
Qed.

Lemma removeKeyframeProperties_sorted (a : Actor) (when : Z) :
  tracks_sorted a -> tracks_sorted (removeKeyframeProperties a when).
Proof.
  unfold tracks_sorted, removeKeyframeProperties. simpl. intros Ha.
  apply map_Forall_fmap. intros nm track Hnm. simpl.
  apply (spliceAt_sorted (millisecondOf a)). by eapply Ha.
Qed.

Lemma world_sorted_insert (w : World) (actor : nat) (a : Actor) :
  world_sorted w -> tracks_sorted a ->
  world_sorted (with_actors_of w (<[actor := a]> (actors w))).
Proof. intros Hw Ha. by apply map_Forall_insert_2. Qed.

Lemma world_sorted_onActor (f : Actor -> Actor) (w : World) (actor : nat) :
  (forall a, tracks_sorted a -> tracks_sorted (f a)) ->
  world_sorted w -> world_sorted (onActor f actor w).
Proof.
  intros Hf Hw i a. unfold onActor. simpl.
  destruct (decide (actor = i)) as [->|Hne].
  - rewrite lookup_alter_eq. destruct (actors w !! i) as [a0|] eqn:Hi;
      simpl; [|done].
    intros [= <-]. apply Hf. by eapply Hw.
  - rewrite lookup_alter_ne by done. apply Hw.
Qed.

Lemma recalculateThroughActor_actors (actor : nat) (w : World) :
  actors (recalculateThroughActor actor w).1 = actors w.
Proof.
  unfold recalculateThroughActor.
  destruct (actors w !! actor) as [a|]; [|done]. by destruct (kapi a).
Qed.

(** What follows the track changes in [keyframe] and [removeKeyframe]: the
    length is recomputed and the cache rebuilt, or the call throws. *)
Lemma finish_sorted (actor : nat) (w : World) :
  world_sorted w ->
  world_sorted
    (ret w >>> recalculateThroughActor actor
     >>> fun w2 => ret (onActor invalidatePropertyCache actor w2)).1.
Proof.
  intros Hw. simpl.
  pose proof (recalculateThroughActor_actors actor w) as Hact.
  destruct (recalculateThroughActor actor w) as [w1 [|e]]; simpl in *.
  - apply world_sorted_onActor; [apply invalidatePropertyCache_sorted|].
    unfold world_sorted. by rewrite Hact.
  - unfold world_sorted. by rewrite Hact.
Qed.

Lemma actorCall_sorted (w : World) (c : nat * ActorCall) :
  world_sorted w -> world_sorted (actorCall w c).1.
Proof.
  intros Hw. destruct c as [actor c]. unfold actorCall. simpl.
  destruct c as [when position opt_easing | when | property index patch].
  - unfold keyframe. destruct (actors w !! actor) as [a|] eqn:Ha; [|done].
    pose proof (keyframeProperties_sorted position a (idCounter w) when
                  opt_easing (Hw _ _ Ha)) as Hs.
    destruct (keyframeProperties a (idCounter w) when position opt_easing)
      as [a' uid']. simpl in Hs.
    apply (finish_sorted actor
             (with_idCounter (with_actors_of w (<[actor:=a']> (actors w)))
                uid')).
    by apply map_Forall_insert_2.
  - unfold removeKeyframe.
    destruct (actors w !! actor) as [a|] eqn:Ha; [|done].
    apply (finish_sorted actor
             (with_actors_of w
                (<[actor:=removeKeyframeProperties a when]> (actors w)))).
    apply map_Forall_insert_2; [|done].
    apply removeKeyframeProperties_sorted. by eapply Hw.
  - unfold modifyKeyframeProperty.
    destruct (actors w !! actor) as [a|] eqn:Ha; [|done].
    destruct (getKeyframeProperty a property index) as [r|],
      patch as [modification|]; simpl; try done;
      (apply map_Forall_insert_2; [|done]);
      apply invalidatePropertyCache_sorted, sortPropertyTracks_sorted.
Qed.

Lemma newActor_sorted (uid : nat) : tracks_sorted (newActor uid).
Proof. unfold tracks_sorted. simpl. apply map_Forall_empty. Qed.

Lemma Actor_new_sorted (w : World) (config_context : option nat) :
  world_sorted w -> world_sorted (Actor_new w config_context).1.1.
Proof.
  intros Hw. unfold Actor_new. destruct config_context; simpl; [done|].
  apply map_Forall_insert_2; [apply newActor_sorted | done].
Qed.

Lemma newWorld_sorted (opt_fps : option Z) (opt_context : option nat) :
  world_sorted (newWorld opt_fps opt_context).
Proof. unfold world_sorted. simpl. apply map_Forall_empty. Qed.

End TracksSorted.

(** ** The claims about keyframe authoring *)

(** C6.  After any finite sequence of [keyframe], [removeKeyframe] and
    [modifyKeyframeProperty] calls, on any actors and whether or not a call
    threw, every property track of every actor is sorted ascending by
    millisecond: the calls preserve sortedness, and a new actor has no track. *)
Theorem tracks_stay_sorted `{Shifty} (w : World)
    (cs : list (nat * ActorCall)) :
  world_sorted w -> world_sorted (actorCalls w cs).
Proof.
  revert w. induction cs as [|c cs IH]; intros w Hw; simpl; [done|].
  apply IH. by apply actorCall_sorted.
Qed.

Section AuthoringExamples.
Local Existing Instance linearShifty.

Lemma tracks_stay_sorted_witness :
  world_sorted oneActor /\
  world_sorted
    (actorCalls oneActor
       [(0%nat, CallKeyframe 1000 [("x", 100); ("y", 7)] EasingUndefined);
        (0%nat, CallKeyframe 0 [("x", 0)] (EasingString "easeInQuad"));
        (0%nat, CallModifyKeyframeProperty "x" 0
                  (Some (mkModification (Some 2000) None None)));
        (0%nat, CallRemoveKeyframe 1000)]).
Proof.
  assert (Hw : world_sorted oneActor).
  { apply (bool_decide_unpack _). vm_compute. reflexivity. }
  split; [exact Hw | exact (tracks_stay_sorted _ _ Hw)].
Defined.

End AuthoringExamples.

(** ** The claims about positions *)

(** C8.  For a millisecond strictly outside [[getStart(), getEnd()]],
    [calculatePosition] returns the actor as it was: the live values and every
    other field are unchanged. *)
Theorem calculatePosition_outside `{Shifty} (a : Actor) (ms : Z) :
  ms < getStart a \/ getEnd a < ms -> calculatePosition a (Fin ms) = a.
Proof.
  intros Hout. unfold calculatePosition.
  destruct (getStart a <=? ms) eqn:Hs; [|done].
  destruct (ms <=? getEnd a) eqn:He; [|done].
  apply Z.leb_le in Hs, He. lia.
Qed.

(** A position that is not a finite number is outside as well. *)
Lemma calculatePosition_not_finite `{Shifty} (a : Actor) (ms : number) :
  (forall z, ms <> Fin z) -> calculatePosition a ms = a.
Proof. intros Hms. destruct ms as [z| | |]; [by destruct (Hms z)|done..]. Qed.

(** C2.  A keyframe property without a successor returns its own value at
    every millisecond; one with the successor [s] returns the interpolation
    of its value toward the value of [s] at the fraction
    [(ms - p.millisecond) / (s.millisecond - p.millisecond)], with the easing
    of [s]. *)
Theorem getValueAt_spec `{Shifty} (store : gmap nat KeyframeProperty)
    (p : KeyframeProperty) (ms : Z) :
  (nextProperty p = None -> getValueAt store p ms = value p) /\
  (forall r s, nextProperty p = Some r -> store !! r = Some s ->
     getValueAt store p ms
     = interpolate (name p) (value p) (value s)
         (divide (ms - millisecond p) (millisecond s - millisecond p))
         (easing s)).
Proof.
  unfold getValueAt, successor. split.
  - by intros ->.
  - intros r s -> Hs. simpl. by rewrite Hs.
Qed.

Section PositionExamples.
Local Existing Instance linearShifty.

Lemma calculatePosition_outside_witness :
  (1001 < getStart tweened \/ getEnd tweened < 1001) /\
  calculatePosition tweened (Fin 1001) = tweened.
Proof.
  assert (Hout : 1001 < getStart tweened \/ getEnd tweened < 1001).
  { right. vm_compute. reflexivity. }
  split; [exact Hout | exact (calculatePosition_outside tweened 1001 Hout)].
Defined.

Lemma getValueAt_spec_witness :
  getValueAt easedStore toProperty 250 = 30 /\
  getValueAt easedStore fromProperty 250
  = interpolate "x" 10 30 (divide 250 1000) "bounce".
Proof.
  split.
  - exact (proj1 (getValueAt_spec easedStore toProperty 250) eq_refl).
  - exact (proj2 (getValueAt_spec easedStore fromProperty 250) 1%nat
             toProperty eq_refl eq_refl).
Defined.

End PositionExamples.

(** ** The cache lookup *)

Lemma cacheIdLoop_spec (list : list Z) (i ms : Z) :
  1 <= i ->
  (Forall (fun key => key < ms) list /\ cacheIdLoop list i ms = -1) \/
  (exists (j : nat) upper,
     cacheIdLoop list i ms = i - 1 + Z.of_nat j /\
     list !! j = Some upper /\ ms <= upper /\
     Forall (fun key => key < ms) (take j list)).
Proof.
  revert i. induction list as [|x rest IH]; intros i Hi; simpl.
  - left. by split.
  - destruct (ms <=? x) eqn:Hx.
    + apply Z.leb_le in Hx. right. exists 0%nat, x. simpl.
      repeat split; [lia | done | constructor].
    + apply Z.leb_gt in Hx.
      destruct (IH (i + 1)) as [[Hall Hr] | (j & upper & Hr & Hj & Hu & Hall)];
        [lia | |].
      * left. split; [by constructor | done].
      * right. exists (S j), upper. simpl.
        repeat split; [lia | done | done | by constructor].
Qed.

Lemma StronglySorted_lookup_lt (l : list Z) (i j : nat) (x y : Z) :
  StronglySorted Z.lt l ->
  l !! i = Some x -> l !! j = Some y -> (i < j)%nat -> x < y.
Proof.
  intros Hl. revert i j. induction Hl as [|z l Hl IH Hz]; intros i j Hi Hj Hij.
  - by rewrite lookup_nil in Hi.
  - destruct j as [|j]; [lia|]. simpl in Hj. destruct i as [|i]; simpl in Hi.
    + injection Hi as ->. rewrite Forall_forall in Hz. apply Hz.
      by eapply list_elem_of_lookup_2.
    + eapply IH; eauto. lia.
Qed.

Lemma getPropertyCacheIdForMillisecond_spec `{Shifty} (a : Actor) (ms : Z) :
  StronglySorted Z.lt (_timelinePropertyCacheIndex a) ->
  lookup_as_implemented (_timelinePropertyCacheIndex a) ms
    (getPropertyCacheIdForMillisecond a ms).
Proof.
  unfold getPropertyCacheIdForMillisecond, lookup_as_implemented.
  intros Hsorted. set (index := _timelinePropertyCacheIndex a) in *.
  destruct (cacheIdLoop_spec (drop 1 index) 1 ms)
    as [[Hall Hr] | (j & upper & Hr & Hj & Hu & Hall)]; [lia | |];
    rewrite Hr.
  - split; [|done]. split; [|done]. intros _ i key Hi Hkey.
    rewrite Forall_forall in Hall. apply Hall.
    apply list_elem_of_lookup. exists (i - 1)%nat.
    rewrite lookup_drop. by replace (1 + (i - 1))%nat with i by lia.
  - rewrite lookup_drop in Hj. simpl in Hj.
    assert (Hbelow : forall (i : nat) key,
               index !! i = Some key -> (1 <= i <= j)%nat -> key < ms).
    { intros i key Hkey Hi. rewrite Forall_forall in Hall. apply Hall.
      apply list_elem_of_lookup. exists (i - 1)%nat.
      rewrite lookup_take_lt by lia. rewrite lookup_drop.
      by replace (1 + (i - 1))%nat with i by lia. }
    assert (Hlt : forall (i i' : nat) key key',
               index !! i = Some key -> index !! i' = Some key' ->
               (i < i')%nat -> key < key').
    { intros i i' key key' Hi Hi' Hlt.
      eapply StronglySorted_lookup_lt; eauto. }
    split.
    + split; [lia|]. intros Hnone.
      pose proof (Hnone (S j) upper ltac:(lia) Hj). lia.
    + intros _. exists j, upper. split_and!; [lia | done | done | |].
      * intros i key Hkey Hi Hj1. destruct (decide (i = 0%nat)) as [->|Hne].
        -- destruct (index !! 1%nat) as [key1|] eqn:H1.
           ++ pose proof (Hlt 0%nat 1%nat key key1 Hkey H1).
              pose proof (Hbelow 1%nat key1 H1). lia.
           ++ apply lookup_ge_None in H1.
              apply lookup_lt_Some in Hj. lia.
        -- apply (Hbelow i key Hkey). lia.
      * intros i key Hkey Hi. destruct (decide (i = S j)) as [->|Hne].
        -- rewrite Hj in Hkey. injection Hkey as <-. done.
        -- pose proof (Hlt (S j) i upper key Hj Hkey). lia.
Qed.

(** Without a bucket nothing is interpolated. *)
Lemma interpolatedObject_no_bucket `{Shifty} (a : Actor) (ms : Z) :
  getPropertyCacheIdForMillisecond a ms = -1 -> interpolatedObject a ms = ∅.
Proof.
  intros Hr. unfold interpolatedObject, propertiesToInterpolate.
  rewrite Hr. simpl. apply omap_empty.
Qed.

(** X1.  The cache index [invalidatePropertyCache] leaves is sorted strictly
    ascending. *)
Lemma invalidatePropertyCache_index_sorted `{Shifty} (a : Actor) :
  StronglySorted Z.lt (_timelinePropertyCacheIndex (invalidatePropertyCache a)).
Proof.
  unfold invalidatePropertyCache. simpl.
  apply sorted_NoDup_strict; [apply sortNumerically_sorted|].
  rewrite sortNumerically_Permutation. apply NoDup_fst_map_to_list.
Qed.

(** C3, as amended.  On a strictly ascending cache index the lookup returns
    -1 exactly when no key from index 1 on is at least [ms] (always, for an
    index of fewer than two keys); otherwise it returns an index [n] whose
    next key is at least [ms], with every later key at least [ms] and, when
    [n] is not 0, every key up to [n] below [ms]: at a key after the first it
    is the bucket before that key.  When -1 is returned no property is
    interpolated, and within [[getStart(), getEnd()]] the empty object is what
    [set] receives. *)
Theorem lookup_amended `{Shifty} (a : Actor) (ms : Z) :
  StronglySorted Z.lt (_timelinePropertyCacheIndex a) ->
  lookup_as_implemented (_timelinePropertyCacheIndex a) ms
    (getPropertyCacheIdForMillisecond a ms) /\
  (getPropertyCacheIdForMillisecond a ms = -1 ->
     interpolatedObject a ms = ∅ /\
     (getStart a <= ms <= getEnd a ->
        calculatePosition a (Fin ms)
        = with_state a (Tweenable_set (_state a) ∅))).
Proof.
  intros Hsorted. split; [by apply getPropertyCacheIdForMillisecond_spec|].
  intros Hr. pose proof (interpolatedObject_no_bucket a ms Hr) as Hempty.
  split; [done|]. intros [Hs He]. unfold calculatePosition.
  apply Z.leb_le in Hs, He. by rewrite Hs, He, Hempty.
Qed.

Section LookupExamples.
Local Existing Instance linearShifty.

Lemma lookup_amended_witness :
  StronglySorted Z.lt (_timelinePropertyCacheIndex tweened) /\
  lookup_as_implemented (_timelinePropertyCacheIndex tweened) 1000
    (getPropertyCacheIdForMillisecond tweened 1000).
Proof.
  assert (Hs : StronglySorted Z.lt (_timelinePropertyCacheIndex tweened)).
  { apply (bool_decide_unpack _). vm_compute. reflexivity. }
  split; [exact Hs | exact (proj1 (lookup_amended tweened 1000 Hs))].
Defined.

(** C3, as stated, fails.  The actor keyframed at 0 and 1000 has the index
    [[0; 1000]]; at 1000, inside [[getStart(), getEnd()]], the lookup returns
    0 although the key at index 1 is at most 1000. *)
Lemma lookup_not_as_specified :
  getStart tweened <= 1000 <= getEnd tweened /\
  _timelinePropertyCacheIndex tweened = [0; 1000] /\
  getPropertyCacheIdForMillisecond tweened 1000 = 0 /\
  ~ lookup_as_specified (_timelinePropertyCacheIndex tweened) 1000
      (getPropertyCacheIdForMillisecond tweened 1000).
Proof.
  assert (Hindex : _timelinePropertyCacheIndex tweened = [0; 1000])
    by (vm_compute; reflexivity).
  assert (Hr : getPropertyCacheIdForMillisecond tweened 1000 = 0)
    by (vm_compute; reflexivity).
  split_and!; [by vm_compute | by vm_compute | done | done |].
  rewrite Hindex, Hr. intros [_ Hgreatest].
  destruct (Hgreatest ltac:(lia)) as [_ Hmax].
  specialize (Hmax 1 1000 eq_refl ltac:(lia)). lia.
Qed.

(** With a single keyframe time the index has one key and the lookup returns
    -1 at that very key. *)
Lemma lookup_single_key :
  _timelinePropertyCacheIndex singleKeyframe = [0] /\
  getStart singleKeyframe = 0 /\ getEnd singleKeyframe = 0 /\
  getPropertyCacheIdForMillisecond singleKeyframe 0 = -1 /\
  Tweenable_get (_state (calculatePosition singleKeyframe (Fin 0))) = ∅.
Proof. split_and!; vm_compute; reflexivity. Qed.

End LookupExamples.

(** ** Playback *)

Section Playback.
Context `{Shifty}.

Lemma engine_cancelLoop (w : World) : engine (cancelLoop w) = engine w.
Proof. unfold cancelLoop. by destruct (_loopId (engine w)). Qed.

Lemma playState_play (w : World) (opt_howManyTimes : option Z) (now : Z) :
  _playState (engine (play w opt_howManyTimes now)) = PLAYING.
Proof. done. Qed.

Lemma playState_stop (w : World) : _playState (engine (stop w)) = STOPPED.
Proof. unfold stop. simpl. by rewrite engine_cancelLoop. Qed.

Lemma playState_pause (w : World) (now : Z) :
  _playState (engine (pause w now)) = PAUSED.
Proof.
  unfold pause. destruct (decide (_playState (engine w) = PAUSED)); [done|].
  simpl. by rewrite engine_cancelLoop.
Qed.

Lemma playState_engineCall (w : World) (c : EngineCall) :
  _playState (engine (engineCall w c))
  = match c with
    | CallPlay _ _ => PLAYING
    | CallPause _ => PAUSED
    | CallStop => STOPPED
    end.
Proof.
  destruct c as [opt_howManyTimes now | now |];
    [apply playState_play | apply playState_pause | apply playState_stop].
Qed.

Lemma loopTimestamp_play (w : World) (opt_howManyTimes : option Z) (now : Z) :
  _loopTimestamp (engine (play w opt_howManyTimes now))
  = Some (if decide (_playState (engine w) = PAUSED)
          then toNumber (_loopTimestamp (engine w))
               + (now - toNumber (_pausedAtTime (engine w)))
          else now).
Proof. unfold play. simpl. by rewrite engine_cancelLoop. Qed.

Lemma timestamps_pause (w : World) (now : Z) :
  _playState (engine w) <> PAUSED ->
  _loopTimestamp (engine (pause w now)) = _loopTimestamp (engine w) /\
  _pausedAtTime (engine (pause w now)) = Some now.
Proof.
  intros Hw. unfold pause.
  destruct (decide (_playState (engine w) = PAUSED)); [done|].
  simpl. by rewrite engine_cancelLoop.
Qed.

End Playback.

(** C10, as amended.  In every sequence of [play], [pause] and [stop] calls
    from the initial [STOPPED] state, a call takes the engine into [PAUSED]
    exactly when it is [pause] and the engine is [PLAYING] or [STOPPED]:
    [pause] enters [PAUSED] from [STOPPED] as it does from [PLAYING]. *)
Theorem paused_entered_by_pause `{Shifty} (opt_fps : option Z)
    (opt_context : option nat) (cs : list EngineCall) (c : EngineCall) :
  _playState (engine (engineCall (engineCalls (newWorld opt_fps opt_context) cs) c))
  = PAUSED /\
  _playState (engine (engineCalls (newWorld opt_fps opt_context) cs)) <> PAUSED
  <->
  isPause c = true /\
  (_playState (engine (engineCalls (newWorld opt_fps opt_context) cs)) = PLAYING
   \/ _playState (engine (engineCalls (newWorld opt_fps opt_context) cs))
      = STOPPED).
Proof.
  rewrite playState_engineCall.
  destruct (_playState (engine (engineCalls _ cs))), c; simpl;
    intuition congruence.
Qed.

(** C7.  [play] from [PAUSED] moves the loop-start timestamp forward by the
    paused interval, the clock reading less the recorded pause time, so the
    time since the start is what it was when the engine paused; from any
    other state [play] sets the timestamp to the clock reading.  Pausing at
    [paused] and playing again at [resumed] leaves, [later] milliseconds on,
    the time since the start [later] beyond what it was at [paused]. *)
Theorem play_loopTimestamp `{Shifty} (w : World)
    (opt_howManyTimes : option Z) (now : Z) :
  (_playState (engine w) = PAUSED ->
     _loopTimestamp (engine (play w opt_howManyTimes now))
     = Some (toNumber (_loopTimestamp (engine w))
             + (now - toNumber (_pausedAtTime (engine w)))) /\
     calculateTimeSinceStart (play w opt_howManyTimes now) now
     = calculateTimeSinceStart w (toNumber (_pausedAtTime (engine w)))) /\
  (_playState (engine w) <> PAUSED ->
     _loopTimestamp (engine (play w opt_howManyTimes now)) = Some now /\
     forall paused resumed later,
       calculateTimeSinceStart
         (play (pause w paused) opt_howManyTimes resumed) (resumed + later)
       = calculateTimeSinceStart w paused + later).
Proof.
  split; intros Hw.
  - unfold calculateTimeSinceStart. rewrite loopTimestamp_play.
    rewrite decide_True by done. simpl. split; [done | lia].
  - rewrite loopTimestamp_play, decide_False by done. split; [done|].
    intros paused resumed later. unfold calculateTimeSinceStart.
    rewrite loopTimestamp_play.
    rewrite decide_True by apply playState_pause.
    destruct (timestamps_pause w paused Hw) as [-> ->]. simpl. lia.
Qed.

Section PlaybackExamples.
Local Existing Instance linearShifty.

(** C10, as stated, fails: the first call may be [pause], which takes the
    engine from its initial [STOPPED] state to [PAUSED]. *)
Lemma pause_from_stopped :
  _playState (engine (newWorld None None)) = STOPPED /\
  _playState (engine (pause (newWorld None None) 0)) = PAUSED /\
  ~ paused_only_from_playing.
Proof.
  split_and!; [done | done |]. intros Hclaim.
  by specialize (Hclaim [] (CallPause 0) eq_refl ltac:(done)).
Qed.

Lemma play_loopTimestamp_witness :
  _playState (engine pausedWorld) = PAUSED /\
  _playState (engine twoKeyframes) <> PAUSED /\
  _loopTimestamp (engine (play pausedWorld None 1000)) = Some (100 + (1000 - 400))
  /\ _loopTimestamp (engine (play twoKeyframes None 100)) = Some 100.
Proof.
  assert (Hp : _playState (engine pausedWorld) = PAUSED) by done.
  assert (Hs : _playState (engine twoKeyframes) <> PAUSED) by done.
  split_and!; [exact Hp | exact Hs | |].
  - exact (proj1 (proj1 (play_loopTimestamp pausedWorld None 1000) Hp)).
  - exact (proj1 (proj2 (play_loopTimestamp twoKeyframes None 100) Hs)).
Defined.

End PlaybackExamples.

(** ** Rendering a tick *)

Section Rendering.
Context `{Shifty}.

Lemma calculateActorPositions_from_returns (order : list nat) (ms : number)
    (w : World) :
  Forall (fun i => is_Some (getActor w i)) order ->
  exists w', calculateActorPositions_from order ms w = (w', Returned) /\
             same_engine w w' /\ trace w' = trace w.
Proof.
  revert w. induction order as [|i rest IH]; intros w Hall; simpl.
  - exists w. by repeat split.
  - apply Forall_cons in Hall as [[a Ha] Hrest]. rewrite Ha.
    set (w1 := with_actors_of w (<[i:=calculatePosition a ms]> (actors w))).
    assert (Hkeep : forall j, is_Some (getActor w j) -> is_Some (getActor w1 j)).
    { intros j. unfold getActor, w1. simpl.
      destruct (decide (j ∈ _actors (engine w))); [|done].
      destruct (decide (i = j)) as [->|Hne].
      - rewrite lookup_insert_eq. eauto.
      - by rewrite lookup_insert_ne. }
    destruct (IH w1) as (w' & Hw' & (He & Ht & Hk) & Htr).
    { eapply Forall_impl; [exact Hrest | exact Hkeep]. }
    exists w'. split; [done|]. repeat split; [done | done | auto | done].
Qed.

Lemma draw_from_returns (order : list nat) (w : World) :
  Forall (fun i => is_Some (getActor w i)) order ->
  exists w', draw_from order w = (w', Returned) /\
             engine w' = engine w /\ timers w' = timers w /\
             actors w' = actors w.
Proof.
  revert w. induction order as [|i rest IH]; intros w Hall; simpl.
  - exists w. by repeat split.
  - apply Forall_cons in Hall as [[a Ha] Hrest]. rewrite Ha.
    destruct (IH (emit w (Render i (Tweenable_get (_state a)))))
      as (w' & Hw' & He & Ht & Ha'); [done|].
    exists w'. by repeat split.
Qed.

(** With every drawn id attached, [render] returns; it records the position
    and leaves the rest of the engine and the timers alone. *)
Lemma render_returns (w : World) (ms : number) :
  drawOrder_attached w ->
  exists w', render w ms = (w', Returned) /\
             engine w' = with_lastRenderedMillisecond (engine w) ms /\
             timers w' = timers w.
Proof.
  intros Hw. unfold render, calculateActorPositions.
  destruct (calculateActorPositions_from_returns _ ms w Hw)
    as (w1 & -> & (He1 & Ht1 & Hk1) & _). simpl.
  unfold draw.
  destruct (draw_from_returns (_drawOrder (engine w1))
              (fireEvent w1 "onBeforeDraw"))
    as (w2 & -> & He2 & Ht2 & _).
  { rewrite He1. eapply Forall_impl; [exact Hw|]. intros i Hi. by apply Hk1. }
  simpl. eexists. split; [done|]. simpl. rewrite He2, Ht2. simpl.
  by rewrite He1, Ht1.
Qed.

Lemma trace_fireEvent_last (w : World) (eventName : string) :
  last (trace (fireEvent w eventName))
  = Some (Fired eventName (default [] (_events (engine w) !! eventName))).
Proof. unfold fireEvent. simpl. apply last_snoc. Qed.

End Rendering.

(** C4.  A tick that renders the elapsed time [e] on an engine of length
    [L > 0] and loop target [n]: when [floor (e / L) >= n] and [n] is not -1
    the position rendered is [L], the engine is then stopped and
    [onAnimationComplete] is the last event fired; otherwise the position
    rendered is [e mod L] and nothing but the render happens, so the play
    state, the scheduled updates and [_loopId] stay as they are. *)
Theorem renderMillisecond_position `{Shifty} (w : World) (e L n : Z) :
  0 <= e -> 0 < L ->
  _animationLength (engine w) = Fin L ->
  _timesToIterate (engine w) = n ->
  drawOrder_attached w ->
  (n <= e / L /\ n <> -1 ->
     exists w1,
       render w (Fin L) = (w1, Returned) /\
       _lastRenderedMillisecond (engine w1) = Fin L /\
       renderMillisecond w e
       = (fireEvent (stop w1) "onAnimationComplete", Returned) /\
       _playState (engine (renderMillisecond w e).1) = STOPPED /\
       exists handlers,
         last (trace (renderMillisecond w e).1)
         = Some (Fired "onAnimationComplete" handlers)) /\
  (~ (n <= e / L /\ n <> -1) ->
     exists w1,
       render w (Fin (e `mod` L)) = (w1, Returned) /\
       _lastRenderedMillisecond (engine w1) = Fin (e `mod` L) /\
       renderMillisecond w e = (w1, Returned) /\
       _playState (engine w1) = _playState (engine w) /\
       timers w1 = timers w /\
       _loopId (engine w1) = _loopId (engine w)).
Proof.
  intros He HL Hlen Hn Hw.
  assert (Hit : determineCurrentLoopIteration (engine w) e = Fin (e / L)).
  { unfold determineCurrentLoopIteration. rewrite Hlen. simpl.
    destruct L; [lia | done | lia]. }
  assert (Hcomplete : forall k : Kapi,
             _timesToIterate k = n ->
             isAnimationComplete k (Fin (e / L))
             = bool_decide (n <= e / L /\ n <> -1)).
  { intros k Hk. unfold isAnimationComplete, number_ge. rewrite Hk.
    destruct (decide (n <= e / L /\ n <> -1)) as [[H1 H2]|Hno].
    - rewrite bool_decide_eq_true_2 by done.
      by rewrite (proj2 (Z.leb_le _ _) H1), (proj2 (Z.eqb_neq _ _) H2).
    - rewrite bool_decide_eq_false_2 by done.
      destruct (n <=? e / L) eqn:E1; [|done].
      destruct (n =? -1) eqn:E2; [done|].
      apply Z.leb_le in E1. apply Z.eqb_neq in E2. by destruct Hno. }
  assert (Hrender : forall position w1,
             calculateLoopPosition (engine w) e (Fin (e / L)) = position ->
             render w position = (w1, Returned) ->
             renderMillisecond w e
             = (updatePlayState w1 (Fin (e / L)), Returned)).
  { intros position w1 Hp Hr. unfold renderMillisecond.
    by rewrite Hit, Hp, Hr. }
  unfold calculateLoopPosition in Hrender.
  rewrite (Hcomplete (engine w) Hn), Hlen in Hrender.
  split; intros Hcase.
  - rewrite bool_decide_eq_true_2 in Hrender by done.
    destruct (render_returns w (Fin L) Hw) as (w1 & Hr & He1 & Ht1).
    exists w1.
    assert (Hn1 : _timesToIterate (engine w1) = n) by (by rewrite He1).
    rewrite (Hrender _ w1 eq_refl Hr). unfold updatePlayState.
    rewrite (Hcomplete (engine w1) Hn1), bool_decide_eq_true_2 by done.
    split_and!; [done | by rewrite He1 | done | |].
    + apply playState_stop.
    + eexists. apply trace_fireEvent_last.
  - rewrite bool_decide_eq_false_2 in Hrender by done.
    assert (Hrem : remainder e (Fin L) = Fin (e `mod` L)).
    { unfold remainder. destruct L; [lia | | lia].
      by rewrite Z.rem_mod_nonneg by lia. }
    rewrite Hrem in Hrender.
    destruct (render_returns w (Fin (e `mod` L)) Hw) as (w1 & Hr & He1 & Ht1).
    exists w1.
    assert (Hn1 : _timesToIterate (engine w1) = n) by (by rewrite He1).
    rewrite (Hrender _ w1 eq_refl Hr). unfold updatePlayState.
    rewrite (Hcomplete (engine w1) Hn1), bool_decide_eq_false_2 by done.
    split_and!; [done | by rewrite He1 | done | by rewrite He1 | done
                | by rewrite He1].
Qed.

Section RenderingExamples.
Local Existing Instance linearShifty.

Lemma renderMillisecond_position_witness :
  (0 <= 2500 /\ 0 < 1000 /\
   _animationLength (engine playedTwice) = Fin 1000 /\
   _timesToIterate (engine playedTwice) = 2 /\
   drawOrder_attached playedTwice) /\
  (2 <= 2500 / 1000 /\ 2 <> -1) /\
  _playState (engine (renderMillisecond playedTwice 2500).1) = STOPPED /\
  ~ (2 <= 500 / 1000 /\ 2 <> -1) /\
  exists w1, renderMillisecond playedTwice 500 = (w1, Returned) /\
             _lastRenderedMillisecond (engine w1) = Fin 500 /\
             _playState (engine w1) = PLAYING.
Proof.
  assert (Hlen : _animationLength (engine playedTwice) = Fin 1000)
    by (vm_compute; reflexivity).
  assert (Hn : _timesToIterate (engine playedTwice) = 2) by reflexivity.
  assert (Hw : drawOrder_attached playedTwice).
  { apply (bool_decide_unpack _). vm_compute. reflexivity. }
  assert (Hdone : 2 <= 2500 / 1000 /\ 2 <> -1) by (vm_compute; split; congruence).
  assert (Hnot : ~ (2 <= 500 / 1000 /\ 2 <> -1)).
  { intros [Hle _]. vm_compute in Hle. congruence. }
  split; [split_and!; [lia | lia | exact Hlen | exact Hn | exact Hw]|].
  split; [exact Hdone|].
  destruct (renderMillisecond_position playedTwice 2500 1000 2
              ltac:(lia) ltac:(lia) Hlen Hn Hw) as [Hcomplete _].
  destruct (Hcomplete Hdone) as (w1 & _ & _ & _ & Hstopped & _).
  split; [exact Hstopped|]. split; [exact Hnot|].
  destruct (renderMillisecond_position playedTwice 500 1000 2
              ltac:(lia) ltac:(lia) Hlen Hn Hw) as [_ Hcontinue].
  destruct (Hcontinue Hnot) as (w2 & _ & Hlast & Hrm & Hstate & _).
  exists w2. split_and!; [exact Hrm | exact Hlast | exact Hstate].
Defined.

End RenderingExamples.

(** ** The stored animation length *)

Section AnimationLength.
Context `{Shifty}.

(** [Math.max] of a non-empty array is its greatest element. *)
Lemma Math_max_from (array : list Z) (acc : Z) :
  exists m, foldl (fun acc x => number_max acc (Fin x)) (Fin acc) array = Fin m
            /\ (m = acc \/ m ∈ array) /\ acc <= m /\ Forall (fun x => x <= m) array.
Proof.
  revert acc. induction array as [|x rest IH]; intros acc; simpl.
  - exists acc. split_and!; [done | by left | lia | constructor].
  - destruct (IH (Z.max acc x)) as (m & Hm & Hin & Hle & Hall).
    exists m. split_and!; [done | | lia |].
    + destruct Hin as [->|Hin]; [|right; by constructor].
      destruct (Z.max_spec acc x) as [[_ ->]|[_ ->]];
        [right; constructor | by left].
    + constructor; [lia | done].
Qed.

Lemma Math_max_nonempty (array : list Z) :
  array <> [] ->
  exists m, Math_max array = Fin m /\ m ∈ array /\ Forall (fun x => x <= m) array.
Proof.
  destruct array as [|x rest]; [done|]. intros _. unfold Math_max. simpl.
  destruct (Math_max_from rest x) as (m & Hm & Hin & Hle & Hall).
  exists m. split_and!; [done | | by constructor].
  destruct Hin as [->|Hin]; [constructor | by constructor].
Qed.

Lemma Math_max_empty : Math_max [] = NegInfinity.
Proof. done. Qed.

(** The recomputation stores the greatest end of the attached actors. *)
Lemma recalculate_length_current (w : World) :
  length_current (_recalculateAnimationLength w).
Proof. done. Qed.

Lemma recalculate_without_actors (w : World) :
  _actors (engine w) = ∅ ->
  animationLength (_recalculateAnimationLength w) = NegInfinity.
Proof.
  intros Hnone. unfold animationLength, _recalculateAnimationLength. simpl.
  by rewrite Hnone, elements_empty.
Qed.

End AnimationLength.

Section AnimationLengthExamples.
Local Existing Instance linearShifty.

(** C5, on the code: removing the only actor leaves [animationLength()] at
    [-Infinity]. *)
Lemma removeActor_last_length :
  _actors (engine (removeActor oneActor 0%nat).1) = ∅ /\
  (removeActor oneActor 0%nat).2 = Returned /\
  animationLength (removeActor oneActor 0%nat).1 = NegInfinity /\
  animationLength (removeActor oneActor 0%nat).1 <> Fin 0.
Proof. split_and!; [by vm_compute | done | by vm_compute | by vm_compute]. Qed.

(** C1, on the code: [modifyKeyframeProperty] and [addActor] return with the
    stored length behind the greatest end of the attached actors. *)
Lemma stale_length :
  (modifyKeyframeProperty twoKeyframes 0%nat "x" 1
     (Some (mkModification (Some 2000) None None))).2 = Returned /\
  animationLength moved = Fin 1000 /\
  attachedEnds moved = [2000] /\
  ~ length_current moved /\
  animationLength addedAgain = Fin 1000 /\
  attachedEnds addedAgain = [2000; 1000] /\
  ~ length_current addedAgain.
Proof.
  assert (H1 : animationLength moved = Fin 1000) by (by vm_compute).
  assert (H2 : attachedEnds moved = [2000]) by (by vm_compute).
  assert (H3 : animationLength addedAgain = Fin 1000) by (by vm_compute).
  assert (H4 : attachedEnds addedAgain = [2000; 1000]) by (by vm_compute).
  split_and!; [by vm_compute | done | done | | done | done |];
    unfold length_current.
  - rewrite H1, H2. by vm_compute.
  - rewrite H3, H4. by vm_compute.
Qed.

(** C9, on the code: [keyframe] and [removeKeyframe] on an actor that was
    never added to an engine throw a [TypeError], the first after it has
    stored the keyframe property; a call without [newProperties] and the
    constructor with a context throw as well. *)
Lemma unattached_calls_throw :
  (keyframe unattached 0%nat 0 [("x", 1)] EasingUndefined).2
  = Thrown TypeError /\
  (_keyframeProperties <$>
     actors (keyframe unattached 0%nat 0 [("x", 1)] EasingUndefined).1
       !! 0%nat) = Some [0%nat] /\
  (removeKeyframe unattached 0%nat 0).2 = Thrown TypeError /\
  (modifyKeyframeProperty twoKeyframes 0%nat "x" 0 None).2
  = Thrown TypeError /\
  (Actor_new (newWorld None None) (Some 0%nat)).2 = Thrown ReferenceError.
Proof. split_and!; by vm_compute. Qed.

End AnimationLengthExamples.

(** ** Where the length is recomputed *)

Section Recomputation.
Context `{Shifty}.

Lemma getEnd_ext (a a' : Actor) :
  same_milliseconds a a' ->
  _propertyTracks a' = _propertyTracks a ->
  getEnd a' = getEnd a.
Proof.
  intros Hms Htr. unfold getEnd. rewrite Htr, !map_fold_foldr.
  apply foldr_ext; [|done..]. intros [nm track] latest. simpl.
  destruct (last track); [|done]. by rewrite Hms.
Qed.

Lemma getEnd_invalidatePropertyCache (a : Actor) :
  getEnd (invalidatePropertyCache a) = getEnd a.
Proof.
  apply getEnd_ext; [apply invalidatePropertyCache_milliseconds | done].
Qed.

Lemma attachedEnds_onActor (f : Actor -> Actor) (actor : nat) (w : World) :
  (forall a, getEnd (f a) = getEnd a) ->
  attachedEnds (onActor f actor w) = attachedEnds w.
Proof.
  intros Hf. unfold attachedEnds, onActor. simpl.
  apply list_omap_ext, Forall2_same_length_lookup. split; [done|].
  intros n i j Hi Hj. rewrite Hi in Hj. injection Hj as <-.
  destruct (decide (actor = i)) as [->|Hne].
  - rewrite lookup_alter_eq. destruct (actors w !! i); simpl; [|done].
    by rewrite Hf.
  - by rewrite lookup_alter_ne.
Qed.

Lemma length_current_finish (actor : nat) (w w' : World) :
  ret w >>> recalculateThroughActor actor
  >>> (fun w2 => ret (onActor invalidatePropertyCache actor w2))
  = (w', Returned) ->
  length_current w'.
Proof.
  unfold recalculateThroughActor, andThen, ret.
  destruct (actors w !! actor) as [a|]; [|done].
  destruct (kapi a); [|done]. intros [= <-].
  unfold length_current.
  rewrite attachedEnds_onActor by apply getEnd_invalidatePropertyCache.
  done.
Qed.

(** X2.  [keyframe], [removeKeyframe] and [removeActor] recompute the length:
    when they return, the stored length is the greatest end of the attached
    actors. *)
Lemma recomputing_calls_length_current (w w' : World) (actor : nat) :
  (forall when position opt_easing,
     keyframe w actor when position opt_easing = (w', Returned) ->
     length_current w') /\
  (forall when,
     removeKeyframe w actor when = (w', Returned) -> length_current w') /\
  (removeActor w actor = (w', Returned) -> length_current w').
Proof.
  split_and!.
  - intros when position opt_easing. unfold keyframe.
    destruct (actors w !! actor) as [a|]; [|done].
    destruct (keyframeProperties a (idCounter w) when position opt_easing)
      as [a' uid'].
    apply length_current_finish.
  - intros when. unfold removeKeyframe.
    destruct (actors w !! actor) as [a|]; [|done].
    apply length_current_finish.
  - unfold removeActor. destruct (actors w !! actor) as [a|]; [|done].
    intros [= <-]. apply recalculate_length_current.
Qed.

(** X3.  With an actor attached, the recomputed length is an integer: the end
    of one of the attached actors, and at least the end of each. *)
Lemma recalculate_maximum (w : World) :
  attachedEnds w <> [] ->
  exists m,
    animationLength (_recalculateAnimationLength w) = Fin m /\
    m ∈ attachedEnds w /\ Forall (fun x => x <= m) (attachedEnds w).
Proof. intros Hne. by apply Math_max_nonempty. Qed.

End Recomputation.

(** ** The extent of an actor *)

(** X4.  [getEnd()] is at least 0 and at least the millisecond of the last
    keyframe property of every track, and it is 0 or the millisecond of the
    last keyframe property of some track. *)
Lemma getEnd_greatest `{Shifty} (a : Actor) :
  0 <= getEnd a /\
  (forall nm track r,
     _propertyTracks a !! nm = Some track -> last track = Some r ->
     millisecondOf a r <= getEnd a) /\
  (getEnd a = 0 \/
   exists nm track r,
     _propertyTracks a !! nm = Some track /\ last track = Some r /\
     getEnd a = millisecondOf a r).
Proof.
  unfold getEnd.
  apply (map_fold_weak_ind
           (fun latest (tracks : gmap string (list nat)) =>
              0 <= latest /\
              (forall nm track r,
                 tracks !! nm = Some track -> last track = Some r ->
                 millisecondOf a r <= latest) /\
              (latest = 0 \/
               exists nm track r,
                 tracks !! nm = Some track /\ last track = Some r /\
                 latest = millisecondOf a r))).
  - split_and!; [lia | | by left]. intros nm track r Hnm.
    by rewrite lookup_empty in Hnm.
  - intros nm track tracks latest Hfresh (H0 & Hub & Hwit).
    assert (Hkeep : forall nm' track',
               tracks !! nm' = Some track' ->
               <[nm:=track]> tracks !! nm' = Some track').
    { intros nm' track' Hnm'. rewrite lookup_insert_ne; [done|].
      intros <-. by rewrite Hfresh in Hnm'. }
    destruct (last track) as [r|] eqn:Hlast.
    + destruct (latest <? millisecondOf a r) eqn:Hlt;
        [apply Z.ltb_lt in Hlt | apply Z.ltb_ge in Hlt].
      * split_and!; [lia | |].
        -- intros nm' track' r' Hnm' Hr'.
           destruct (decide (nm = nm')) as [<-|Hne].
           ++ rewrite lookup_insert_eq in Hnm'. injection Hnm' as <-.
              rewrite Hlast in Hr'. injection Hr' as <-. lia.
           ++ rewrite lookup_insert_ne in Hnm' by done.
              pose proof (Hub _ _ _ Hnm' Hr'). lia.
        -- right. exists nm, track, r. by rewrite lookup_insert_eq.
      * split_and!; [lia | |].
        -- intros nm' track' r' Hnm' Hr'.
           destruct (decide (nm = nm')) as [<-|Hne].
           ++ rewrite lookup_insert_eq in Hnm'. injection Hnm' as <-.
              rewrite Hlast in Hr'. injection Hr' as <-. lia.
           ++ rewrite lookup_insert_ne in Hnm' by done. eauto.
        -- destruct Hwit as [->|(nm' & track' & r' & Hnm' & Hr' & ->)];
             [by left|].
           right. exists nm', track', r'. eauto.
    + split_and!; [lia | |].
      * intros nm' track' r' Hnm' Hr'.
        destruct (decide (nm = nm')) as [<-|Hne].
        -- rewrite lookup_insert_eq in Hnm'. injection Hnm' as <-.
           by rewrite Hlast in Hr'.
        -- rewrite lookup_insert_ne in Hnm' by done. eauto.
      * destruct Hwit as [->|(nm' & track' & r' & Hnm' & Hr' & ->)];
          [by left|].
        right. exists nm', track', r'. eauto.
Qed.

(** X5.  Removing at a millisecond no entry of a track sits at leaves the
    track as it is, and removes nothing from the registry. *)
Lemma spliceAt_no_match `{Shifty} (a : Actor) (when : Z) (track : list nat) :
  Forall (fun r => millisecondOf a r <> when) track ->
  spliceAt a when track = (track, None).
Proof.
  induction 1 as [|r rest Hr Hrest IH]; simpl; [done|].
  rewrite (proj2 (Z.eqb_neq _ _) Hr). by rewrite IH.
Qed.

(** ** The scenarios of the specification, on the example Shifty *)

Section Scenarios.
Local Existing Instance linearShifty.

(** X7.  Track [x] keyframed [{0: 0, 1000: 100}], linear: at 500, [x] is
    50. *)
Lemma scenario_interpolation :
  Tweenable_get (_state (calculatePosition tweened (Fin 500))) = {[ "x" := 50 ]}.
Proof. by vm_compute. Qed.

(** Two actors that end at 1000 and at 2000: the length is 2000 once the
    second one is keyframed. *)
Lemma scenario_two_actors :
  animationLength
    (keyframe (addActor (Actor_new twoKeyframes None).1.1 1%nat).1 1%nat 2000
       [("y", 1)] EasingUndefined).1
  = Fin 2000.
Proof. by vm_compute. Qed.

(** X6.  [play(2)] on the 1000 ms animation: the update that runs at 2500
    renders position 1000, stops the engine, fires [onAnimationComplete] once
    and leaves no update scheduled. *)
Lemma scenario_two_loops :
  _playState (engine (updateFn playedTwice 0%nat 2500).1) = STOPPED /\
  _lastRenderedMillisecond (engine (updateFn playedTwice 0%nat 2500).1)
  = Fin 1000 /\
  firedNames
    (drop (length (trace playedTwice))
       (trace (updateFn playedTwice 0%nat 2500).1))
  = ["onBeforeDraw"; "onFrameRender"; "onPlayStateChange"; "onStop";
     "onAnimationComplete"] /\
  timers (updateFn playedTwice 0%nat 2500).1 = ∅.
Proof. split_and!; by vm_compute. Qed.

(** An engine without keyframes has length 0: a tick with a loop target
    completes at once at position 0, and one without renders [NaN]. *)
Lemma scenario_empty_engine :
  _lastRenderedMillisecond
    (engine (renderMillisecond (play oneActor (Some 1) 0) 16).1) = Fin 0 /\
  _playState (engine (renderMillisecond (play oneActor (Some 1) 0) 16).1)
  = STOPPED /\
  _lastRenderedMillisecond
    (engine (renderMillisecond (play oneActor None 0) 16).1) = NaN.
Proof. split_and!; by vm_compute. Qed.

Lemma recalculate_maximum_witness :
  attachedEnds twoKeyframes <> [] /\
  exists m,
    animationLength (_recalculateAnimationLength twoKeyframes) = Fin m /\
    m ∈ attachedEnds twoKeyframes /\
    Forall (fun x => x <= m) (attachedEnds twoKeyframes).
Proof.
  assert (Hne : attachedEnds twoKeyframes <> []) by (by vm_compute).
  split; [exact Hne | exact (recalculate_maximum twoKeyframes Hne)].
Defined.

Lemma spliceAt_no_match_witness :
  Forall (fun r => millisecondOf tweened r <> 500) [0%nat; 1%nat] /\
  spliceAt tweened 500 [0%nat; 1%nat] = ([0%nat; 1%nat], None).
Proof.
  assert (Hno : Forall (fun r => millisecondOf tweened r <> 500)
                  [0%nat; 1%nat]).
  { repeat constructor; by vm_compute. }
  split; [exact Hno | exact (spliceAt_no_match tweened 500 _ Hno)].
Defined.

End Scenarios.

(** The tick at any elapsed time and any stored length, finite or not: the
    position rendered is the one [calculateLoopPosition] gives, and only a
    complete animation is stopped. *)
Lemma renderMillisecond_cases `{Shifty} (w : World) (e : Z) :
  drawOrder_attached w ->
  exists w1,
    render w
      (calculateLoopPosition (engine w) e
         (determineCurrentLoopIteration (engine w) e))
    = (w1, Returned) /\
    renderMillisecond w e
    = (if isAnimationComplete (engine w)
            (determineCurrentLoopIteration (engine w) e)
       then fireEvent (stop w1) "onAnimationComplete" else w1, Returned).
Proof.
  intros Hw.
  destruct (render_returns w
              (calculateLoopPosition (engine w) e
                 (determineCurrentLoopIteration (engine w) e)) Hw)
    as (w1 & Hr & He1 & _).
  exists w1. split; [done|]. unfold renderMillisecond. rewrite Hr.
  unfold andThen, ret, updatePlayState, isAnimationComplete.
  by rewrite He1.
Qed.

(** * More of the code *)

(** ** The keyframe property objects of an actor *)

Section WellFormed.
Context `{Shifty}.

Lemma same_but_next_refl (p : KeyframeProperty) : same_but_next p p.
Proof. unfold same_but_next. by destruct p. Qed.

Lemma same_but_next_linkToNext (p p' : KeyframeProperty) (next : option nat) :
  same_but_next p p' -> same_but_next p (linkToNext p' next).
Proof. unfold same_but_next. intros ->. done. Qed.

Lemma linkTrack_lookup (track : list nat) (store : gmap nat KeyframeProperty)
    (r : nat) :
  option_Forall2 same_but_next (store !! r) (linkTrack track store !! r).
Proof.
  revert store. induction track as [|r' rest IH]; intros store; simpl.
  - destruct (store !! r); constructor. apply same_but_next_refl.
  - specialize (IH (alter (fun p => linkToNext p (head rest)) r' store)).
    destruct (decide (r' = r)) as [->|Hne].
    + rewrite lookup_alter_eq in IH. destruct (store !! r) as [p|]; simpl in IH.
      * inversion IH as [p1 p2 Hrel H1 H2|]; subst. constructor.
        unfold same_but_next in *. rewrite Hrel. by destruct p.
      * inversion IH. constructor.
    + by rewrite lookup_alter_ne in IH.
Qed.

Lemma linkTrackedProperties_lookup (a : Actor) (r : nat) :
  option_Forall2 same_but_next (properties a !! r)
    (properties (linkTrackedProperties a) !! r).
Proof.
  unfold linkTrackedProperties. simpl.
  apply (map_fold_weak_ind
           (fun store _ =>
              option_Forall2 same_but_next (properties a !! r) (store !! r))).
  - destruct (properties a !! r); constructor. apply same_but_next_refl.
  - intros nm track tracks store _ IH.
    pose proof (linkTrack_lookup track store r) as Hl.
    destruct IH as [p p1 Hp|]; inversion Hl as [p1' p2 Hp2 H1 H2|]; subst;
      constructor.
    unfold same_but_next in *. rewrite Hp2, Hp. by destruct p.
Qed.

Lemma invalidatePropertyCache_lookup (a : Actor) (r : nat) :
  option_Forall2 same_but_next (properties a !! r)
    (properties (invalidatePropertyCache a) !! r).
Proof.
  exact (linkTrackedProperties_lookup
           (cachePropertiesToSegments
              (with_caches a (fillCaches a)
                 (sortNumerically (map_to_list (fillCaches a)).*1))) r).
Qed.

Lemma actor_wf_mono (counter counter' : nat) (a : Actor) :
  (counter <= counter')%nat -> actor_wf counter a -> actor_wf counter' a.
Proof.
  intros Hle [Ht Hn Hr Hc]. split; [done..|].
  intros r Hr'. specialize (Hc r Hr'). lia.
Qed.

(** Well-formedness looks at the tracks, the registry and the store, and in
    the store at everything but the links. *)
Lemma actor_wf_ext (counter : nat) (a a' : Actor) :
  _propertyTracks a' = _propertyTracks a ->
  _keyframeProperties a' = _keyframeProperties a ->
  (forall r, option_Forall2 same_but_next (properties a !! r)
               (properties a' !! r)) ->
  actor_wf counter a -> actor_wf counter a'.
Proof.
  intros Htr Hreg Hst [Ht Hn Hr Hc]. split.
  - rewrite Htr. intros nm track Hnm. destruct (Ht nm track Hnm) as [Hnd Hin].
    split; [done|]. intros r Hr'. destruct (Hin r Hr') as (p & Hp & Hname).
    specialize (Hst r). rewrite Hp in Hst.
    inversion Hst as [p1 p2 Hrel H1 H2|]; subst.
    exists p2. split; [done|]. unfold same_but_next in Hrel.
    by rewrite Hrel.
  - by rewrite Hreg.
  - rewrite Hreg, Htr. apply Hr.
  - intros r Hr'. apply Hc. specialize (Hst r).
    destruct Hr' as [p' Hp']. rewrite Hp' in Hst. inversion Hst. eauto.
Qed.

Lemma invalidatePropertyCache_wf (counter : nat) (a : Actor) :
  actor_wf counter a -> actor_wf counter (invalidatePropertyCache a).
Proof.
  apply actor_wf_ext; [done | done | apply invalidatePropertyCache_lookup].
Qed.

Lemma sortPropertyTracks_wf (counter : nat) (a : Actor) :
  actor_wf counter a -> actor_wf counter (sortPropertyTracks a).
Proof.
  intros [Ht Hn Hr Hc]. split; simpl; [|done| |done].
  - intros nm track Hnm. rewrite lookup_fmap in Hnm.
    destruct (_propertyTracks a !! nm) as [track0|] eqn:Hnm0; [|done].
    injection Hnm as <-. destruct (Ht nm track0 Hnm0) as [Hnd Hin].
    split; [by rewrite sortBy_Permutation|].
    intros r Hr'. rewrite sortBy_Permutation in Hr'. auto.
  - intros r. rewrite Hr. split.
    + intros (nm & track & Hnm & Hin).
      exists nm, (sortBy (millisecondOf a) track).
      rewrite lookup_fmap, Hnm. split; [done|]. by rewrite sortBy_Permutation.
    + intros (nm & track & Hnm & Hin). rewrite lookup_fmap in Hnm.
      destruct (_propertyTracks a !! nm) as [track0|] eqn:Hnm0; [|done].
      injection Hnm as <-. rewrite sortBy_Permutation in Hin. eauto.
Qed.

End WellFormed.

Section WellFormedCalls.
Context `{Shifty}.

Lemma addKeyframeProperty_wf (counter uid : nat) (a : Actor) (when : Z)
    (nm : string) (v : Value) (opt_easing : string) :
  (counter <= uid)%nat -> actor_wf counter a ->
  actor_wf (S uid) (addKeyframeProperty a uid when nm v opt_easing).
Proof.
  intros Hle [Ht Hn Hr Hc]. unfold addKeyframeProperty.
  apply sortPropertyTracks_wf.
  assert (Hfresh : properties a !! uid = None).
  { destruct (properties a !! uid) eqn:E; [|done].
    assert (uid < counter)%nat by (apply Hc; eauto). lia. }
  assert (Hout : forall nm' track, _propertyTracks a !! nm' = Some track ->
                   uid ∉ track).
  { intros nm' track Hnm' Hin. destruct (Ht nm' track Hnm') as [_ Hst].
    destruct (Hst uid Hin) as (p & Hp & _). by rewrite Hfresh in Hp. }
  split; simpl.
  - intros nm' track Hnm'. destruct (decide (nm = nm')) as [<-|Hne].
    + rewrite lookup_insert_eq in Hnm'. injection Hnm' as <-.
      destruct (_propertyTracks a !! nm) as [track0|] eqn:Hnm0; simpl.
      * destruct (Ht nm track0 Hnm0) as [Hnd Hst]. split.
        -- apply NoDup_app. split_and!; [done | | apply NoDup_singleton].
           intros r Hr' ->%list_elem_of_singleton. by eapply Hout.
        -- intros r [Hr' | ->%list_elem_of_singleton]%elem_of_app.
           ++ destruct (Hst r Hr') as (p & Hp & Hname). exists p.
              split; [|done]. rewrite lookup_insert_ne; [done|].
              intros <-. by rewrite Hfresh in Hp.
           ++ rewrite lookup_insert_eq. eauto.
      * split; [apply NoDup_singleton|].
        intros r ->%list_elem_of_singleton. rewrite lookup_insert_eq. eauto.
    + rewrite lookup_insert_ne in Hnm' by done.
      destruct (Ht nm' track Hnm') as [Hnd Hst]. split; [done|].
      intros r Hr'. destruct (Hst r Hr') as (p & Hp & Hname). exists p.
      split; [|done]. rewrite lookup_insert_ne; [done|].
      intros <-. by rewrite Hfresh in Hp.
  - apply NoDup_app. split_and!; [done | | apply NoDup_singleton].
    intros r Hr' ->%list_elem_of_singleton.
    apply Hr in Hr' as (nm' & track & Hnm' & Hin). by eapply Hout.
  - intros r. rewrite elem_of_app, list_elem_of_singleton, Hr. split.
    + intros [(nm' & track & Hnm' & Hin) | ->].
      * destruct (decide (nm = nm')) as [<-|Hne].
        -- exists nm, (track ++ [uid]). rewrite lookup_insert_eq, Hnm'.
           split; [done|]. apply elem_of_app. by left.
        -- exists nm', track. by rewrite lookup_insert_ne.
      * exists nm, (default [] (_propertyTracks a !! nm) ++ [uid]).
        rewrite lookup_insert_eq. split; [done|].
        apply elem_of_app. right. by apply list_elem_of_singleton.
    + intros (nm' & track & Hnm' & Hin).
      destruct (decide (nm = nm')) as [<-|Hne].
      * rewrite lookup_insert_eq in Hnm'. injection Hnm' as <-.
        apply elem_of_app in Hin as [Hin | Hin%list_elem_of_singleton];
          [|by right].
        left. destruct (_propertyTracks a !! nm) as [track0|] eqn:Hnm0;
          simpl in Hin; [eauto | by apply elem_of_nil in Hin].
      * rewrite lookup_insert_ne in Hnm' by done. eauto.
  - intros r [p Hp]. destruct (decide (uid = r)) as [<-|Hne]; [lia|].
    rewrite lookup_insert_ne in Hp by done.
    assert (r < counter)%nat by (apply Hc; eauto). lia.
Qed.

Lemma keyframeProperties_wf (position : list (string * Value))
    (counter uid : nat) (a : Actor) (when : Z) (opt_easing : Easing) :
  (counter <= uid)%nat -> actor_wf counter a ->
  (uid <= (keyframeProperties a uid when position opt_easing).2)%nat /\
  actor_wf (keyframeProperties a uid when position opt_easing).2
    (keyframeProperties a uid when position opt_easing).1.
Proof.
  unfold keyframeProperties. revert counter uid a.
  induction position as [|[nm v] position IH]; intros counter uid a Hle Ha;
    simpl.
  - split; [done|]. by eapply actor_wf_mono.
  - destruct (IH (S uid) (S uid)
                (addKeyframeProperty a uid when nm v (easingFor opt_easing nm))
                ltac:(lia)) as [Hle' Hwf].
    { by eapply addKeyframeProperty_wf. }
    split; [lia | done].
Qed.

Lemma spliceAt_removed_elem_of (a : Actor) (when : Z) (track : list nat)
    (r : nat) :
  (spliceAt a when track).2 = Some r -> r ∈ track.
Proof.
  induction track as [|x rest IH]; simpl; [done|].
  destruct (millisecondOf a x =? when); simpl.
  - intros [= ->]. constructor.
  - destruct (spliceAt a when rest) as [rest' removed]. simpl in *.
    intros Hr. right. auto.
Qed.

(** With each object once in a track, the splice takes out the first entry
    at [when] and nothing else. *)
Lemma spliceAt_elem_of (a : Actor) (when : Z) (track : list nat) (r : nat) :
  NoDup track ->
  r ∈ (spliceAt a when track).1 <->
  r ∈ track /\ (spliceAt a when track).2 ≠ Some r.
Proof.
  induction track as [|r' rest IH]; simpl; intros Hnd.
  - split; [by intros ?%elem_of_nil | by intros [?%elem_of_nil _]].
  - apply NoDup_cons in Hnd as [Hnotin Hnd].
    destruct (millisecondOf a r' =? when); simpl.
    + rewrite elem_of_cons. split.
      * intros Hin. split; [by right|]. intros [= ->]. done.
      * intros [[-> | Hin] Hne]; [done | done].
    + specialize (IH Hnd).
      pose proof (spliceAt_removed_elem_of a when rest r') as Hrem.
      destruct (spliceAt a when rest) as [rest' removed] eqn:Hs. simpl in *.
      rewrite !elem_of_cons, IH. split.
      * intros [-> | [Hin Hne]]; [|by auto]. split; [by left|].
        intros ->. by apply Hnotin, Hrem.
      * intros [[-> | Hin] Hne]; [by left | by right].
Qed.

Lemma spliceAt_NoDup (a : Actor) (when : Z) (track : list nat) :
  NoDup track -> NoDup (spliceAt a when track).1.
Proof.
  induction 1 as [|x rest Hx Hnd IH]; simpl; [constructor|].
  destruct (millisecondOf a x =? when); [done|].
  pose proof (spliceAt_elem_of a when rest x Hnd) as Hel.
  destruct (spliceAt a when rest) as [rest' removed]. simpl in *.
  constructor; [|done]. rewrite Hel. tauto.
Qed.

Lemma removeKeyframeProperties_wf (counter : nat) (a : Actor) (when : Z) :
  actor_wf counter a -> actor_wf counter (removeKeyframeProperties a when).
Proof.
  intros [Ht Hn Hr Hc]. unfold removeKeyframeProperties. split; simpl.
  - intros nm track Hnm. rewrite lookup_fmap in Hnm.
    destruct (_propertyTracks a !! nm) as [track0|] eqn:Hnm0; [|done].
    injection Hnm as <-. destruct (Ht nm track0 Hnm0) as [Hnd Hst].
    split; [by apply spliceAt_NoDup|].
    intros r Hr'. apply spliceAt_elem_of in Hr' as [Hr' _]; auto.
  - by apply NoDup_filter.
  - intros r. rewrite list_elem_of_filter, Hr. split.
    + intros [Hnot (nm & track & Hnm & Hin)].
      exists nm, (spliceAt a when track).1. rewrite lookup_fmap, Hnm.
      split; [done|]. destruct (Ht nm track Hnm) as [Hnd _].
      apply spliceAt_elem_of; [done|]. split; [done|]. intros Hrem.
      apply Hnot. apply list_elem_of_omap. exists track. split; [|done].
      apply list_elem_of_fmap. exists (nm, track). split; [done|].
      by apply elem_of_map_to_list.
    + intros (nm & track & Hnm & Hin). rewrite lookup_fmap in Hnm.
      destruct (_propertyTracks a !! nm) as [track0|] eqn:Hnm0; [|done].
      injection Hnm as <-. destruct (Ht nm track0 Hnm0) as [Hnd Hst].
      apply spliceAt_elem_of in Hin as [Hin Hne]; [|done].
      split; [|eauto]. intros Hrem.
      apply list_elem_of_omap in Hrem as (track1 & Hin1 & Hrem).
      apply list_elem_of_fmap in Hin1 as ([nm1 track1'] & -> & Hin1).
      apply elem_of_map_to_list in Hin1. simpl in *.
      pose proof (spliceAt_removed_elem_of a when _ r Hrem) as Hr1.
      destruct (Ht nm1 track1' Hin1) as [_ Hst1].
      destruct (Hst r Hin) as (p & Hp & Hname).
      destruct (Hst1 r Hr1) as (p1 & Hp1 & Hname1).
      rewrite Hp in Hp1. injection Hp1 as <-.
      assert (nm1 = nm) as -> by congruence.
      rewrite Hnm0 in Hin1. injection Hin1 as <-. done.
  - done.
Qed.

(** A change of fields other than [name] in the store keeps the objects in
    order. *)
Lemma alter_wf (counter : nat) (a : Actor) (f : KeyframeProperty ->
    KeyframeProperty) (r : nat) :
  (forall p, name (f p) = name p) ->
  actor_wf counter a ->
  actor_wf counter (with_properties a (alter f r (properties a))).
Proof.
  intros Hf [Ht Hn Hr Hc]. split; simpl; [|done|done|].
  - intros nm track Hnm. destruct (Ht nm track Hnm) as [Hnd Hst].
    split; [done|]. intros r' Hr'. destruct (Hst r' Hr') as (p & Hp & Hname).
    destruct (decide (r = r')) as [<-|Hne].
    + exists (f p). rewrite lookup_alter_eq, Hp. split; [done|].
      by rewrite Hf.
    + exists p. by rewrite lookup_alter_ne.
  - intros r' [p Hp]. apply Hc. destruct (decide (r = r')) as [<-|Hne].
    + rewrite lookup_alter_eq in Hp. by destruct (properties a !! r); eauto.
    + rewrite lookup_alter_ne in Hp by done. eauto.
Qed.

End WellFormedCalls.

(** ** What each call leaves alone *)

Section Frames.
Context `{Shifty}.

Lemma lookup_rel_refl {A : Type} (R : A -> A -> Prop) (m : gmap nat A)
    (i : nat) :
  (forall a, R a a) -> option_Forall2 R (m !! i) (m !! i).
Proof. intros HR. destruct (m !! i); constructor. apply HR. Qed.

Lemma lookup_rel_insert {A : Type} (R : A -> A -> Prop) (m : gmap nat A)
    (i j : nat) (a a' : A) :
  (forall x, R x x) -> m !! j = Some a -> R a a' ->
  option_Forall2 R (m !! i) (<[j := a']> m !! i).
Proof.
  intros HR Hj Ha. destruct (decide (j = i)) as [->|Hne].
  - rewrite lookup_insert_eq, Hj. by constructor.
  - rewrite lookup_insert_ne by done. by apply lookup_rel_refl.
Qed.

Lemma lookup_rel_alter {A : Type} (R : A -> A -> Prop) (f : A -> A)
    (m : gmap nat A) (i j : nat) :
  (forall x, R x x) -> (forall x, R x (f x)) ->
  option_Forall2 R (m !! i) (alter f j m !! i).
Proof.
  intros HR Hf. destruct (decide (j = i)) as [->|Hne].
  - rewrite lookup_alter_eq. destruct (m !! i); constructor. apply Hf.
  - rewrite lookup_alter_ne by done. by apply lookup_rel_refl.
Qed.

Lemma lookup_rel_trans {A : Type} (R : A -> A -> Prop) (x y z : option A) :
  (forall a b c, R a b -> R b c -> R a c) ->
  option_Forall2 R x y -> option_Forall2 R y z -> option_Forall2 R x z.
Proof.
  intros HR Hxy Hyz. destruct Hxy; inversion Hyz; subst; constructor.
  eauto.
Qed.

Lemma same_structure_refl (a : Actor) : same_structure a a.
Proof. done. Qed.

Lemma same_structure_trans (a b c : Actor) :
  same_structure a b -> same_structure b c -> same_structure a c.
Proof. intros (?&?&?) (?&?&?). split_and!; congruence. Qed.

Lemma same_structures_refl (w : World) : same_structures w w.
Proof. split; [done|]. intros i. by apply lookup_rel_refl. Qed.

Lemma same_structures_trans (w1 w2 w3 : World) :
  same_structures w1 w2 -> same_structures w2 w3 -> same_structures w1 w3.
Proof.
  intros [Hc1 Ha1] [Hc2 Ha2]. split; [congruence|]. intros i.
  eapply lookup_rel_trans; [apply same_structure_trans | apply Ha1 | apply Ha2].
Qed.

Lemma keeps_attachment_refl (w : World) : keeps_attachment w w.
Proof. split; try done. intros i. by apply lookup_rel_refl. Qed.

Lemma keeps_attachment_trans (w1 w2 w3 : World) :
  keeps_attachment w1 w2 -> keeps_attachment w2 w3 -> keeps_attachment w1 w3.
Proof.
  intros [A1 B1 C1 D1] [A2 B2 C2 D2]. split; try congruence. intros i.
  eapply lookup_rel_trans; [|apply D1|apply D2]. simpl. congruence.
Qed.

Lemma keeps_schedule_refl (w : World) : keeps_schedule w w.
Proof. done. Qed.

Lemma keeps_schedule_trans (w1 w2 w3 : World) :
  keeps_schedule w1 w2 -> keeps_schedule w2 w3 -> keeps_schedule w1 w3.
Proof. intros [] []. split; congruence. Qed.

(** A world that differs in its actors only, each related to what it was. *)
Lemma frames_of_actors (w : World) (store : gmap nat Actor) :
  (forall i, option_Forall2
               (fun a a' => same_structure a a' /\ kapi a' = kapi a)
               (actors w !! i) (store !! i)) ->
  same_structures w (with_actors_of w store) /\
  keeps_attachment w (with_actors_of w store) /\
  keeps_schedule w (with_actors_of w store) /\
  keeps_length w (with_actors_of w store).
Proof.
  intros Hst. split_and!; [split; [done|] | split; try done | done | done];
    intros i; simpl; specialize (Hst i); destruct Hst as [a a' [? ?]|];
    by constructor.
Qed.

End Frames.

Section EngineFrames.
Context `{Shifty}.

Lemma keeps_all_refl (w : World) : keeps_all w w.
Proof.
  split_and!; [apply same_structures_refl | apply keeps_attachment_refl
              | done | done].
Qed.

Lemma keeps_all_trans (w1 w2 w3 : World) :
  keeps_all w1 w2 -> keeps_all w2 w3 -> keeps_all w1 w3.
Proof.
  intros (A1 & B1 & C1 & D1) (A2 & B2 & C2 & D2). split_and!.
  - by eapply same_structures_trans.
  - by eapply keeps_attachment_trans.
  - by eapply keeps_schedule_trans.
  - unfold keeps_length in *. congruence.
Qed.

Lemma keeps_all_fields (w w' : World) :
  actors w' = actors w -> idCounter w' = idCounter w ->
  actorCount w' = actorCount w -> timers w' = timers w ->
  _actors (engine w') = _actors (engine w) ->
  _drawOrder (engine w') = _drawOrder (engine w) ->
  _playState (engine w') = _playState (engine w) ->
  _loopId (engine w') = _loopId (engine w) ->
  _animationLength (engine w') = _animationLength (engine w) ->
  keeps_all w w'.
Proof.
  intros Ha Hi Hc Ht Hs Hd Hp Hl Hn. split_and!; [split | split | split |];
    try done; intros i; rewrite Ha; by apply lookup_rel_refl.
Qed.

Lemma keeps_all_emit (w : World) (e : Event) : keeps_all w (emit w e).
Proof. by apply keeps_all_fields. Qed.

Lemma keeps_all_fireEvent (w : World) (eventName : string) :
  keeps_all w (fireEvent w eventName).
Proof. apply keeps_all_emit. Qed.

Lemma keeps_all_eachActor (f : Actor -> Actor) (w : World) :
  (forall a, same_structure a (f a) /\ kapi (f a) = kapi a) ->
  keeps_all w (eachActor f w).
Proof.
  intros Hf. apply frames_of_actors. intros i.
  rewrite map_lookup_imap. destruct (actors w !! i) as [a|]; simpl;
    constructor.
  destruct (decide (i ∈ _actors (engine w))); [apply Hf | done].
Qed.

Lemma keeps_all_onActor (f : Actor -> Actor) (actor : nat) (w : World) :
  (forall a, same_structure a (f a) /\ kapi (f a) = kapi a) ->
  keeps_all w (onActor f actor w).
Proof.
  intros Hf. apply frames_of_actors. intros i.
  apply lookup_rel_alter; [done | apply Hf].
Qed.

Lemma calculatePosition_structure (a : Actor) (ms : number) :
  same_structure a (calculatePosition a ms) /\
  kapi (calculatePosition a ms) = kapi a.
Proof.
  unfold calculatePosition. destruct ms as [m| | |]; try done.
  by destruct (_ && _).
Qed.

Lemma with_state_structure (a : Actor) (st : Tweenable) :
  same_structure a (with_state a st) /\ kapi (with_state a st) = kapi a.
Proof. done. Qed.

Lemma keeps_all_calculateActorPositions_from (order : list nat) (ms : number)
    (w : World) :
  keeps_all w (calculateActorPositions_from order ms w).1.
Proof.
  revert w. induction order as [|i rest IH]; intros w; simpl.
  - apply keeps_all_refl.
  - unfold getActor. destruct (decide (i ∈ _actors (engine w)));
      [|apply keeps_all_refl].
    destruct (actors w !! i) as [a|] eqn:Ha; [|apply keeps_all_refl].
    eapply keeps_all_trans; [|apply IH].
    apply frames_of_actors. intros j.
    apply (lookup_rel_insert _ _ _ _ a); [done | done|].
    apply calculatePosition_structure.
Qed.

Lemma keeps_all_draw_from (order : list nat) (w : World) :
  keeps_all w (draw_from order w).1.
Proof.
  revert w. induction order as [|i rest IH]; intros w; simpl.
  - apply keeps_all_refl.
  - destruct (getActor w i) as [a|]; [|apply keeps_all_refl].
    eapply keeps_all_trans; [apply keeps_all_emit | apply IH].
Qed.

Lemma keeps_all_lastRendered (w : World) (ms : number) :
  keeps_all w (with_engine_of w (with_lastRenderedMillisecond (engine w) ms)).
Proof. by apply keeps_all_fields. Qed.

Lemma keeps_all_render (w : World) (ms : number) :
  keeps_all w (render w ms).1.
Proof.
  unfold render, calculateActorPositions.
  pose proof (keeps_all_calculateActorPositions_from
                (_drawOrder (engine w)) ms w) as H1.
  destruct (calculateActorPositions_from (_drawOrder (engine w)) ms w)
    as [w1 [|e]]; simpl in *; [|done].
  unfold draw.
  pose proof (keeps_all_draw_from (_drawOrder (engine w1))
                (fireEvent w1 "onBeforeDraw")) as H2.
  destruct (draw_from (_drawOrder (engine w1)) (fireEvent w1 "onBeforeDraw"))
    as [w2 [|e]]; simpl in *.
  - eapply keeps_all_trans; [exact H1|].
    eapply keeps_all_trans; [apply keeps_all_fireEvent|].
    eapply keeps_all_trans; [exact H2|].
    eapply keeps_all_trans; [apply keeps_all_lastRendered|].
    apply keeps_all_fireEvent.
  - eapply keeps_all_trans; [exact H1|].
    eapply keeps_all_trans; [apply keeps_all_fireEvent | exact H2].
Qed.

Lemma keeps_all_bind (w : World) (eventName : string) (handler : nat) :
  keeps_all w (bind w eventName handler).
Proof.
  unfold bind. destruct (_events (engine w) !! eventName);
    by apply keeps_all_fields.
Qed.

Lemma keeps_all_unbind (w : World) (eventName : string)
    (opt_handler : option nat) :
  keeps_all w (unbind w eventName opt_handler).
Proof.
  unfold unbind. destruct (_events (engine w) !! eventName);
    by apply keeps_all_fields.
Qed.

Lemma keeps_content_of_all (w w' : World) : keeps_all w w' -> keeps_content w w'.
Proof. intros (?&?&?&?). by split_and!. Qed.

Lemma keeps_content_trans (w1 w2 w3 : World) :
  keeps_content w1 w2 -> keeps_content w2 w3 -> keeps_content w1 w3.
Proof.
  intros (A1 & B1 & D1) (A2 & B2 & D2). split_and!.
  - by eapply same_structures_trans.
  - by eapply keeps_attachment_trans.
  - unfold keeps_length in *. congruence.
Qed.

Lemma keeps_content_fields (w w' : World) :
  actors w' = actors w -> idCounter w' = idCounter w ->
  actorCount w' = actorCount w ->
  _actors (engine w') = _actors (engine w) ->
  _drawOrder (engine w') = _drawOrder (engine w) ->
  _animationLength (engine w') = _animationLength (engine w) ->
  keeps_content w w'.
Proof.
  intros Ha Hi Hc Hs Hd Hn. split_and!; [split | split |];
    try done; intros i; rewrite Ha; by apply lookup_rel_refl.
Qed.

Lemma keeps_content_engine (w : World) (k : Kapi) :
  _actors k = _actors (engine w) -> _drawOrder k = _drawOrder (engine w) ->
  _animationLength k = _animationLength (engine w) ->
  keeps_content w (with_engine_of w k).
Proof. intros. by apply keeps_content_fields. Qed.

Lemma keeps_content_cancelLoop (w w' : World) :
  keeps_content w w' -> keeps_content w (cancelLoop w').
Proof.
  intros Hw. eapply keeps_content_trans; [exact Hw|].
  unfold cancelLoop. destruct (_loopId (engine w'));
    by apply keeps_content_fields.
Qed.

Lemma keeps_content_tick (w w' : World) :
  keeps_content w w' -> keeps_content w (tick w').
Proof.
  intros Hw. eapply keeps_content_trans; [exact Hw|].
  by apply keeps_content_fields.
Qed.

Lemma keeps_content_with_engine (w w' : World) (k : Kapi) :
  keeps_content w w' ->
  _actors k = _actors (engine w') -> _drawOrder k = _drawOrder (engine w') ->
  _animationLength k = _animationLength (engine w') ->
  keeps_content w (with_engine_of w' k).
Proof.
  intros Hw Ha Hd Hl. eapply keeps_content_trans; [exact Hw|].
  by apply keeps_content_fields.
Qed.

Lemma keeps_content_fireEvent (w w' : World) (eventName : string) :
  keeps_content w w' -> keeps_content w (fireEvent w' eventName).
Proof.
  intros Hw. eapply keeps_content_trans; [exact Hw|].
  apply keeps_content_of_all, keeps_all_fireEvent.
Qed.

Lemma keeps_content_eachActor (f : Actor -> Actor) (w w' : World) :
  (forall a, same_structure a (f a) /\ kapi (f a) = kapi a) ->
  keeps_content w w' -> keeps_content w (eachActor f w').
Proof.
  intros Hf Hw. eapply keeps_content_trans; [exact Hw|].
  by apply keeps_content_of_all, keeps_all_eachActor.
Qed.

Lemma keeps_content_refl (w : World) : keeps_content w w.
Proof. apply keeps_content_of_all, keeps_all_refl. Qed.

Lemma keeps_content_play (w : World) (opt_howManyTimes : option Z) (now : Z) :
  keeps_content w (play w opt_howManyTimes now).
Proof.
  unfold play. do 2 apply keeps_content_fireEvent.
  apply keeps_content_eachActor.
  { intros a. by destruct (isPaused (_state a)). }
  apply keeps_content_tick, keeps_content_with_engine; [|done..].
  apply keeps_content_cancelLoop, keeps_content_refl.
Qed.

Lemma keeps_content_pause (w : World) (now : Z) :
  keeps_content w (pause w now).
Proof.
  unfold pause. destruct (decide (_playState (engine w) = PAUSED));
    [apply keeps_content_refl|].
  do 2 apply keeps_content_fireEvent.
  apply keeps_content_eachActor.
  { intros a. by destruct (isTweening (_state a)). }
  apply keeps_content_with_engine; [|done..].
  apply keeps_content_cancelLoop, keeps_content_with_engine; [|done..].
  apply keeps_content_refl.
Qed.

Lemma keeps_content_stop (w : World) : keeps_content w (stop w).
Proof.
  unfold stop. do 2 apply keeps_content_fireEvent.
  apply keeps_content_eachActor; [done|].
  apply keeps_content_cancelLoop, keeps_content_with_engine; [|done..].
  apply keeps_content_refl.
Qed.

Lemma keeps_content_engineCall (w : World) (c : EngineCall) :
  keeps_content w (engineCall w c).
Proof.
  destruct c; [apply keeps_content_play | apply keeps_content_pause
              | apply keeps_content_stop].
Qed.

Lemma keeps_content_playFrom (w : World) (ms : Z)
    (opt_howManyTimes : option Z) (now now' : Z) :
  keeps_content w (playFrom w ms opt_howManyTimes now now').
Proof.
  unfold playFrom.
  apply keeps_content_with_engine; [apply keeps_content_play | done..].
Qed.

Lemma keeps_content_updatePlayState (w : World) (iteration : number) :
  keeps_content w (updatePlayState w iteration).
Proof.
  unfold updatePlayState. destruct (isAnimationComplete _ _);
    [|apply keeps_content_refl].
  apply keeps_content_fireEvent, keeps_content_stop.
Qed.

Lemma keeps_content_renderMillisecond (w : World) (forMillisecond : Z) :
  keeps_content w (renderMillisecond w forMillisecond).1.
Proof.
  unfold renderMillisecond.
  pose proof (keeps_all_render w
                (calculateLoopPosition (engine w) forMillisecond
                   (determineCurrentLoopIteration (engine w) forMillisecond)))
    as Hr.
  destruct (render w _) as [w1 [|e]]; simpl in *.
  - eapply keeps_content_trans; [apply keeps_content_of_all, Hr|].
    apply keeps_content_updatePlayState.
  - by apply keeps_content_of_all.
Qed.

Lemma keeps_content_updateFn (w : World) (timer : nat) (now : Z) :
  keeps_content w (updateFn w timer now).1.
Proof.
  unfold updateFn. destruct (decide (timer ∈ timers w));
    [|apply keeps_content_refl].
  unfold renderCurrentMillisecond.
  eapply keeps_content_trans; [|apply keeps_content_renderMillisecond].
  apply keeps_content_tick. by apply keeps_content_fields.
Qed.

End EngineFrames.

Section AuthoringFrames.
Context `{Shifty}.

Lemma andThen_invariant (P : World -> Prop) (r : World * completion)
    (f : World -> World * completion) :
  P r.1 -> (forall w, P w -> P (f w).1) -> P (r >>> f).1.
Proof. destruct r as [w [|e]]; simpl; auto. Qed.

Lemma keeps_engine_refl (w : World) : keeps_engine w w.
Proof. split; [apply keeps_attachment_refl | done]. Qed.

Lemma keeps_engine_trans (w1 w2 w3 : World) :
  keeps_engine w1 w2 -> keeps_engine w2 w3 -> keeps_engine w1 w3.
Proof.
  intros [A1 B1] [A2 B2]. split;
    [by eapply keeps_attachment_trans | by eapply keeps_schedule_trans].
Qed.

Lemma keeps_engine_andThen (w : World) (r : World * completion)
    (f : World -> World * completion) :
  keeps_engine w r.1 -> (forall w1, keeps_engine w1 (f w1).1) ->
  keeps_engine w (r >>> f).1.
Proof.
  intros Hr Hf. destruct r as [w1 [|e]]; simpl in *; [|done].
  eapply keeps_engine_trans; [exact Hr | apply Hf].
Qed.

Lemma keeps_engine_insert (w : World) (i : nat) (a a' : Actor) (uid : nat) :
  actors w !! i = Some a -> kapi a' = kapi a ->
  keeps_engine w
    (with_idCounter (with_actors_of w (<[i := a']> (actors w))) uid).
Proof.
  intros Ha Hk. split; [split; try done|done]. intros j. simpl.
  by apply (lookup_rel_insert _ _ _ _ a).
Qed.

Lemma keeps_engine_insert' (w : World) (i : nat) (a a' : Actor) :
  actors w !! i = Some a -> kapi a' = kapi a ->
  keeps_engine w (with_actors_of w (<[i := a']> (actors w))).
Proof.
  intros Ha Hk. split; [split; try done|done]. intros j. simpl.
  by apply (lookup_rel_insert _ _ _ _ a).
Qed.

Lemma keeps_engine_onActor (f : Actor -> Actor) (actor : nat) (w : World) :
  (forall a, kapi (f a) = kapi a) -> keeps_engine w (onActor f actor w).
Proof.
  intros Hf. split; [split; try done|done]. intros j. simpl.
  by apply lookup_rel_alter.
Qed.

Lemma keeps_engine_recalculate (w : World) :
  keeps_engine w (_recalculateAnimationLength w).
Proof.
  split; [split; try done|done]. intros j. by apply lookup_rel_refl.
Qed.

Lemma keeps_engine_recalculateThroughActor (actor : nat) (w : World) :
  keeps_engine w (recalculateThroughActor actor w).1.
Proof.
  unfold recalculateThroughActor.
  destruct (actors w !! actor) as [a|]; [|apply keeps_engine_refl].
  destruct (kapi a); [apply keeps_engine_recalculate | apply keeps_engine_refl].
Qed.

Lemma keeps_engine_finish (actor : nat) (w w' : World) :
  keeps_engine w w' ->
  keeps_engine w
    (ret w' >>> recalculateThroughActor actor
     >>> fun w2 => ret (onActor invalidatePropertyCache actor w2)).1.
Proof.
  intros Hw. apply keeps_engine_andThen.
  - apply keeps_engine_andThen; [done|].
    apply keeps_engine_recalculateThroughActor.
  - intros w1. by apply keeps_engine_onActor.
Qed.

Lemma kapi_keyframeProperties (position : list (string * Value)) (a : Actor)
    (uid : nat) (when : Z) (opt_easing : Easing) :
  kapi (keyframeProperties a uid when position opt_easing).1 = kapi a.
Proof.
  unfold keyframeProperties. revert a uid.
  induction position as [|[nm v] position IH]; intros a uid; simpl; [done|].
  by rewrite IH.
Qed.

Lemma keeps_engine_keyframe (w : World) (actor : nat) (when : Z)
    (position : list (string * Value)) (opt_easing : Easing) :
  keeps_engine w (keyframe w actor when position opt_easing).1.
Proof.
  unfold keyframe. destruct (actors w !! actor) as [a|] eqn:Ha;
    [|apply keeps_engine_refl].
  pose proof (kapi_keyframeProperties position a (idCounter w) when opt_easing)
    as Hk.
  destruct (keyframeProperties a (idCounter w) when position opt_easing)
    as [a' uid'].
  apply keeps_engine_finish. by eapply keeps_engine_insert.
Qed.

Lemma keeps_engine_removeKeyframe (w : World) (actor : nat) (when : Z) :
  keeps_engine w (removeKeyframe w actor when).1.
Proof.
  unfold removeKeyframe. destruct (actors w !! actor) as [a|] eqn:Ha;
    [|apply keeps_engine_refl].
  apply keeps_engine_finish. by eapply keeps_engine_insert'.
Qed.

Lemma keeps_engine_modifyKeyframeProperty (w : World) (actor : nat)
    (property : string) (index : nat) (newProperties : option Modification) :
  keeps_engine w
    (modifyKeyframeProperty w actor property index newProperties).1.
Proof.
  unfold modifyKeyframeProperty. destruct (actors w !! actor) as [a|] eqn:Ha;
    [|apply keeps_engine_refl].
  destruct (getKeyframeProperty a property index) as [r|],
    newProperties as [modification|]; simpl;
    first [apply keeps_engine_refl | by eapply keeps_engine_insert'].
Qed.

Lemma keeps_engine_actorCall (w : World) (c : nat * ActorCall) :
  keeps_engine w (actorCall w c).1.
Proof.
  destruct c as [actor [when position opt_easing | when | property index m]];
    [apply keeps_engine_keyframe | apply keeps_engine_removeKeyframe
    | apply keeps_engine_modifyKeyframeProperty].
Qed.

Lemma modifyKeyframe_fold (when : Z)
    (stateModification : option (gmap string Value))
    (easingModification : gmap string string) (a : Actor) :
  let result :=
    map_fold (modifyKeyframeInTrack when stateModification easingModification)
      (a, Returned) (_propertyTracks a) in
  _propertyTracks result.1 = _propertyTracks a /\
  _keyframeProperties result.1 = _keyframeProperties a /\
  kapi result.1 = kapi a /\
  (forall r, millisecondOf result.1 r = millisecondOf a r) /\
  (forall r, option_Forall2 (fun p p' => name p' = name p)
               (properties a !! r) (properties result.1 !! r)).
Proof.
  simpl.
  apply (map_fold_weak_ind
           (fun (acc : Actor * completion) _ =>
              _propertyTracks acc.1 = _propertyTracks a /\
              _keyframeProperties acc.1 = _keyframeProperties a /\
              kapi acc.1 = kapi a /\
              (forall r, millisecondOf acc.1 r = millisecondOf a r) /\
              (forall r, option_Forall2 (fun p p' => name p' = name p)
                           (properties a !! r) (properties acc.1 !! r)))).
  - split_and!; try done. intros r. by apply lookup_rel_refl.
  - intros nm track tracks [a' c] _ (Ht & Hr & Hk & Hms & Hnm).
    unfold modifyKeyframeInTrack. destruct c as [|e]; [|done].
    destruct (findPropertyAtMillisecondInTrack a' nm when) as [r0|]; [|done].
    destruct stateModification as [state|]; [|done]. simpl in *.
    split_and!; try done.
    + intros r. rewrite <- Hms. unfold millisecondOf. simpl.
      destruct (decide (r0 = r)) as [->|Hne].
      * rewrite lookup_alter_eq. by destruct (properties a' !! r).
      * by rewrite lookup_alter_ne.
    + intros r. eapply lookup_rel_trans; [|apply Hnm|].
      { simpl. congruence. }
      by apply lookup_rel_alter.
Qed.

Lemma keeps_engine_modifyKeyframe (w : World) (actor : nat) (when : Z)
    (stateModification : option (gmap string Value))
    (opt_easingModification : option (gmap string string)) :
  keeps_engine w
    (modifyKeyframe w actor when stateModification opt_easingModification).1.
Proof.
  unfold modifyKeyframe. destruct (actors w !! actor) as [a|] eqn:Ha;
    [|apply keeps_engine_refl].
  pose proof (modifyKeyframe_fold when stateModification
                (default ∅ opt_easingModification) a) as (_ & _ & Hk & _).
  simpl in Hk. destruct (map_fold _ _ _) as [a' c]. simpl in *.
  by eapply keeps_engine_insert'.
Qed.

Lemma keeps_engine_removeAllKeyframeProperties (w : World) (actor : nat) :
  keeps_engine w (removeAllKeyframeProperties w actor).1.
Proof.
  unfold removeAllKeyframeProperties.
  destruct (actors w !! actor) as [a|] eqn:Ha; [|apply keeps_engine_refl].
  eapply keeps_engine_trans; [|apply keeps_engine_removeKeyframe].
  by eapply keeps_engine_insert'.
Qed.

Lemma keeps_engine_copyProperties (w : World) (actor : nat)
    (copyTo copyFrom : Z) :
  keeps_engine w (copyProperties w actor copyTo copyFrom).1.
Proof.
  unfold copyProperties. destruct (actors w !! actor) as [a|];
    [apply keeps_engine_keyframe | apply keeps_engine_refl].
Qed.

Lemma keeps_engine_wait (w : World) (actor : nat) (until : Z) :
  keeps_engine w (wait w actor until).1.
Proof.
  unfold wait. destruct (actors w !! actor) as [a|];
    [|apply keeps_engine_refl].
  destruct (until <=? getEnd a); [apply keeps_engine_refl|].
  destruct (latestAtEnd a) as [latest|]; [|apply keeps_engine_refl].
  apply keeps_engine_andThen;
    [apply keeps_engine_andThen; [apply keeps_engine_removeKeyframe|]|];
    intros w1; apply keeps_engine_keyframe.
Qed.

End AuthoringFrames.

(** ** Sorted tracks and well-formed actors, under every call *)

Section StructureInvariants.
Context `{Shifty}.

Lemma millisecondOf_same_structure (a a' : Actor) :
  same_structure a a' -> same_milliseconds a a'.
Proof. intros (_ & _ & Hp) r. unfold millisecondOf. by rewrite Hp. Qed.

Lemma world_sorted_same_structures (w w' : World) :
  same_structures w w' -> world_sorted w -> world_sorted w'.
Proof.
  intros [_ Hs] Hw i a' Ha'. specialize (Hs i). rewrite Ha' in Hs.
  inversion Hs as [a a2 Hrel Ha H2|]; subst. symmetry in Ha.
  eapply tracks_sorted_ext; [by apply millisecondOf_same_structure | apply Hrel|].
  by eapply Hw.
Qed.

Lemma world_wf_same_structures (w w' : World) :
  same_structures w w' -> world_wf w -> world_wf w'.
Proof.
  intros [Hc Hs] Hw i a' Ha'. specialize (Hs i). rewrite Ha' in Hs.
  inversion Hs as [a a2 (Ht & Hr & Hp) Ha H2|]; subst. symmetry in Ha.
  rewrite Hc. eapply actor_wf_ext; [exact Ht | exact Hr | | by eapply Hw].
  intros r. rewrite Hp. apply lookup_rel_refl, same_but_next_refl.
Qed.

Lemma world_wf_insert (w : World) (actor : nat) (a : Actor) (counter : nat) :
  world_wf w -> (idCounter w <= counter)%nat -> actor_wf counter a ->
  world_wf (with_idCounter (with_actors_of w (<[actor := a]> (actors w)))
              counter).
Proof.
  intros Hw Hle Ha. apply map_Forall_insert_2; [done|].
  intros i a' Hi. eapply actor_wf_mono; [exact Hle | by eapply Hw].
Qed.

Lemma world_wf_insert' (w : World) (actor : nat) (a : Actor) :
  world_wf w -> actor_wf (idCounter w) a ->
  world_wf (with_actors_of w (<[actor := a]> (actors w))).
Proof. intros Hw Ha. by apply map_Forall_insert_2. Qed.

Lemma world_wf_finish (actor : nat) (w : World) :
  world_wf w ->
  world_wf
    (ret w >>> recalculateThroughActor actor
     >>> fun w2 => ret (onActor invalidatePropertyCache actor w2)).1.
Proof.
  intros Hw. simpl.
  assert (Hrec : world_wf (recalculateThroughActor actor w).1).
  { unfold recalculateThroughActor.
    destruct (actors w !! actor) as [a|]; [|done]. by destruct (kapi a). }
  destruct (recalculateThroughActor actor w) as [w1 [|e]]; simpl in *;
    [|done].
  intros i a. unfold onActor. simpl. destruct (decide (actor = i)) as [->|Hne].
  - rewrite lookup_alter_eq. destruct (actors w1 !! i) as [a0|] eqn:Hi;
      simpl; [|done].
    intros [= <-]. apply invalidatePropertyCache_wf. by eapply Hrec.
  - rewrite lookup_alter_ne by done. apply Hrec.
Qed.

Lemma world_wf_keyframe (w : World) (actor : nat) (when : Z)
    (position : list (string * Value)) (opt_easing : Easing) :
  world_wf w -> world_wf (keyframe w actor when position opt_easing).1.
Proof.
  intros Hw. unfold keyframe.
  destruct (actors w !! actor) as [a|] eqn:Ha; [|done].
  destruct (keyframeProperties_wf position (idCounter w) (idCounter w) a when
              opt_easing ltac:(lia) (Hw _ _ Ha)) as [Hle Hwf].
  destruct (keyframeProperties a (idCounter w) when position opt_easing)
    as [a' uid']. simpl in *.
  apply (world_wf_finish actor
           (with_idCounter (with_actors_of w (<[actor:=a']> (actors w))) uid')).
  by apply world_wf_insert.
Qed.

Lemma world_wf_removeKeyframe (w : World) (actor : nat) (when : Z) :
  world_wf w -> world_wf (removeKeyframe w actor when).1.
Proof.
  intros Hw. unfold removeKeyframe.
  destruct (actors w !! actor) as [a|] eqn:Ha; [|done].
  apply (world_wf_finish actor
           (with_actors_of w
              (<[actor:=removeKeyframeProperties a when]> (actors w)))).
  apply world_wf_insert'; [done|].
  apply removeKeyframeProperties_wf. by eapply Hw.
Qed.

Lemma world_wf_modifyKeyframeProperty (w : World) (actor : nat)
    (property : string) (index : nat) (newProperties : option Modification) :
  world_wf w ->
  world_wf (modifyKeyframeProperty w actor property index newProperties).1.
Proof.
  intros Hw. unfold modifyKeyframeProperty.
  destruct (actors w !! actor) as [a|] eqn:Ha; [|done].
  pose proof (Hw _ _ Ha) as Hwf.
  destruct (getKeyframeProperty a property index) as [r|],
    newProperties as [modification|]; simpl; try done;
    apply world_wf_insert'; try done;
    apply invalidatePropertyCache_wf, sortPropertyTracks_wf; try done.
  by apply alter_wf.
Qed.

Lemma world_wf_actorCall (w : World) (c : nat * ActorCall) :
  world_wf w -> world_wf (actorCall w c).1.
Proof.
  destruct c as [actor [when position opt_easing | when | property index m]];
    [apply world_wf_keyframe | apply world_wf_removeKeyframe
    | apply world_wf_modifyKeyframeProperty].
Qed.

Lemma world_wf_modifyKeyframe (w : World) (actor : nat) (when : Z)
    (stateModification : option (gmap string Value))
    (opt_easingModification : option (gmap string string)) :
  world_wf w ->
  world_wf
    (modifyKeyframe w actor when stateModification opt_easingModification).1.
Proof.
  intros Hw. unfold modifyKeyframe.
  destruct (actors w !! actor) as [a|] eqn:Ha; [|done].
  pose proof (modifyKeyframe_fold when stateModification
                (default ∅ opt_easingModification) a)
    as (Ht & Hr & _ & _ & Hnm).
  simpl in *. destruct (map_fold _ _ _) as [a' c]. simpl in *.
  apply world_wf_insert'; [done|].
  destruct (Hw _ _ Ha) as [Wt Wn Wr Wc]. split.
  - rewrite Ht. intros nm track Hnm'. destruct (Wt nm track Hnm') as [Hnd Hst].
    split; [done|]. intros r Hr'. destruct (Hst r Hr') as (p & Hp & Hname).
    specialize (Hnm r). rewrite Hp in Hnm.
    inversion Hnm as [p1 p2 Hrel H1 H2|]; subst. exists p2.
    split; [done | congruence].
  - by rewrite Hr.
  - rewrite Hr, Ht. apply Wr.
  - intros r [p' Hp']. apply Wc. specialize (Hnm r). rewrite Hp' in Hnm.
    inversion Hnm. eauto.
Qed.

Lemma world_sorted_modifyKeyframe (w : World) (actor : nat) (when : Z)
    (stateModification : option (gmap string Value))
    (opt_easingModification : option (gmap string string)) :
  world_sorted w ->
  world_sorted
    (modifyKeyframe w actor when stateModification opt_easingModification).1.
Proof.
  intros Hw. unfold modifyKeyframe.
  destruct (actors w !! actor) as [a|] eqn:Ha; [|done].
  pose proof (modifyKeyframe_fold when stateModification
                (default ∅ opt_easingModification) a)
    as (Ht & _ & _ & Hms & _).
  simpl in *. destruct (map_fold _ _ _) as [a' c]. simpl in *.
  apply map_Forall_insert_2; [|done].
  eapply tracks_sorted_ext; [exact Hms | exact Ht | by eapply Hw].
Qed.

Lemma cleared_wf (counter : nat) (a : Actor) :
  actor_wf counter a ->
  actor_wf counter
    (with_keyframeProperties
       (with_propertyTracks a ((fun _ => []) <$> _propertyTracks a)) []).
Proof.
  intros [Wt Wn Wr Wc]. split; simpl; [| constructor | | done].
  - intros nm track Hnm. rewrite lookup_fmap in Hnm.
    destruct (_propertyTracks a !! nm); [|done]. injection Hnm as <-.
    split; [constructor|]. by intros r ?%elem_of_nil.
  - intros r. split; [by intros ?%elem_of_nil|].
    intros (nm & track & Hnm & Hin). rewrite lookup_fmap in Hnm.
    destruct (_propertyTracks a !! nm); [|done]. injection Hnm as <-.
    by apply elem_of_nil in Hin.
Qed.

Lemma cleared_sorted (a : Actor) :
  tracks_sorted
    (with_keyframeProperties
       (with_propertyTracks a ((fun _ => []) <$> _propertyTracks a)) []).
Proof.
  unfold tracks_sorted. simpl. apply map_Forall_fmap.
  intros nm track _. constructor.
Qed.

Lemma world_wf_removeAllKeyframeProperties (w : World) (actor : nat) :
  world_wf w -> world_wf (removeAllKeyframeProperties w actor).1.
Proof.
  intros Hw. unfold removeAllKeyframeProperties.
  destruct (actors w !! actor) as [a|] eqn:Ha; [|done].
  apply world_wf_removeKeyframe, world_wf_insert'; [done|].
  apply cleared_wf. by eapply Hw.
Qed.

Lemma world_sorted_removeAllKeyframeProperties (w : World) (actor : nat) :
  world_sorted w -> world_sorted (removeAllKeyframeProperties w actor).1.
Proof.
  intros Hw. unfold removeAllKeyframeProperties.
  destruct (actors w !! actor) as [a|] eqn:Ha; [|done].
  apply (actorCall_sorted _ (actor, CallRemoveKeyframe 0)).
  apply map_Forall_insert_2; [apply cleared_sorted | done].
Qed.

Lemma world_wf_copyProperties (w : World) (actor : nat) (copyTo copyFrom : Z) :
  world_wf w -> world_wf (copyProperties w actor copyTo copyFrom).1.
Proof.
  intros Hw. unfold copyProperties.
  destruct (actors w !! actor) as [a|]; [by apply world_wf_keyframe | done].
Qed.

Lemma world_sorted_copyProperties (w : World) (actor : nat)
    (copyTo copyFrom : Z) :
  world_sorted w -> world_sorted (copyProperties w actor copyTo copyFrom).1.
Proof.
  intros Hw. unfold copyProperties.
  destruct (actors w !! actor) as [a|]; [|done].
  by apply (actorCall_sorted _ (actor, CallKeyframe _ _ _)).
Qed.

Lemma world_wf_wait (w : World) (actor : nat) (until : Z) :
  world_wf w -> world_wf (wait w actor until).1.
Proof.
  intros Hw. unfold wait. destruct (actors w !! actor) as [a|]; [|done].
  destruct (until <=? getEnd a); [done|].
  destruct (latestAtEnd a) as [latest|]; [|done].
  apply andThen_invariant; [apply andThen_invariant|];
    [by apply world_wf_removeKeyframe | |];
    intros w1 Hw1; by apply world_wf_keyframe.
Qed.

Lemma world_sorted_wait (w : World) (actor : nat) (until : Z) :
  world_sorted w -> world_sorted (wait w actor until).1.
Proof.
  intros Hw. unfold wait. destruct (actors w !! actor) as [a|]; [|done].
  destruct (until <=? getEnd a); [done|].
  destruct (latestAtEnd a) as [latest|]; [|done].
  apply andThen_invariant; [apply andThen_invariant|].
  - by apply (actorCall_sorted _ (actor, CallRemoveKeyframe _)).
  - intros w1 Hw1. by apply (actorCall_sorted _ (actor, CallKeyframe _ _ _)).
  - intros w1 Hw1. by apply (actorCall_sorted _ (actor, CallKeyframe _ _ _)).
Qed.

Lemma newActor_wf (counter uid : nat) : actor_wf counter (newActor uid).
Proof.
  split; simpl.
  - intros nm track Hnm. by rewrite lookup_empty in Hnm.
  - constructor.
  - intros r. split; [by intros ?%elem_of_nil|].
    intros (nm & track & Hnm & _). by rewrite lookup_empty in Hnm.
  - intros r [p Hp]. by rewrite lookup_empty in Hp.
Qed.

Lemma world_wf_Actor_new (w : World) (config_context : option nat) :
  world_wf w -> world_wf (Actor_new w config_context).1.1.
Proof.
  intros Hw. unfold Actor_new. destruct config_context; simpl; [done|].
  apply map_Forall_insert_2; [apply newActor_wf | done].
Qed.

(** The calls that leave the structure of every actor alone. *)
Lemma same_structures_attach (w : World) (actor : nat) (a : Actor)
    (ctx : option nat) (attached : bool) (rate : option Z) (k : Kapi) :
  actors w !! actor = Some a ->
  same_structures w
    (with_engine_of
       (with_actors_of w (<[actor := with_engine a ctx attached rate]>
                            (actors w))) k).
Proof.
  intros Ha. split; [done|]. intros i. simpl.
  by apply (lookup_rel_insert _ _ _ _ a).
Qed.

Lemma same_structures_call (w : World) (c : Call) :
  match c with
  | NewActor _ | Authoring _ _ | ModifyKeyframe _ _ _ _
  | RemoveAllKeyframeProperties _ | CopyProperties _ _ _ | Wait _ _ => True
  | _ => same_structures w (call w c)
  end.
Proof.
  destruct c as [ctx | actor | actor | actor layer | actor layer | c
                | ms n now now' | timer now | ms | | nm h | nm h | actor c
                | actor when sm em | actor | actor copyTo copyFrom
                | actor until | actor ms]; simpl; try done.
  - unfold addActor. destruct (actors w !! actor) as [a|] eqn:Ha;
      [|apply same_structures_refl].
    destruct (decide (actor ∈ _actors (engine w)));
      [apply same_structures_refl|].
    simpl. by apply (same_structures_attach w actor a).
  - unfold removeActor. destruct (actors w !! actor) as [a|] eqn:Ha;
      [|apply same_structures_refl].
    simpl. by apply (same_structures_attach w actor a).
  - unfold moveActorToLayer. destruct (layer <? _);
      [|apply same_structures_refl].
    destruct (actors w !! actor); apply (same_structures_refl w).
  - unfold moveToLayer, moveActorToLayer.
    destruct (actors w !! actor) as [a|]; [|apply same_structures_refl].
    destruct (kapi a); [|apply same_structures_refl].
    destruct (layer <? _); apply (same_structures_refl w).
  - apply keeps_content_engineCall.
  - apply keeps_content_playFrom.
  - apply keeps_content_updateFn.
  - apply keeps_all_render.
  - apply keeps_all_render.
  - apply keeps_all_bind.
  - apply keeps_all_unbind.
  - apply keeps_all_onActor. intros a. apply calculatePosition_structure.
Qed.

Lemma world_sorted_call (w : World) (c : Call) :
  world_sorted w -> world_sorted (call w c).
Proof.
  intros Hw. pose proof (same_structures_call w c) as Hs.
  destruct c; try (by eapply world_sorted_same_structures); simpl.
  - by apply Actor_new_sorted.
  - by apply actorCall_sorted.
  - by apply world_sorted_modifyKeyframe.
  - by apply world_sorted_removeAllKeyframeProperties.
  - by apply world_sorted_copyProperties.
  - by apply world_sorted_wait.
Qed.

Lemma world_wf_call (w : World) (c : Call) :
  world_wf w -> world_wf (call w c).
Proof.
  intros Hw. pose proof (same_structures_call w c) as Hs.
  destruct c; try (by eapply world_wf_same_structures); simpl.
  - by apply world_wf_Actor_new.
  - by apply world_wf_actorCall.
  - by apply world_wf_modifyKeyframe.
  - by apply world_wf_removeAllKeyframeProperties.
  - by apply world_wf_copyProperties.
  - by apply world_wf_wait.
Qed.

End StructureInvariants.

(** ** Attachment, schedule and length, under every call *)

Section EngineInvariants.
Context `{Shifty}.

Lemma splice_insert_Permutation {A : Type} (array : list A) (start : Z)
    (x : A) :
  splice_insert array start x ≡ₚ x :: array.
Proof.
  unfold splice_insert.
  rewrite <- Permutation_middle. by rewrite take_drop.
Qed.

Lemma splice_insert_lookup {A : Type} (array : list A) (start : Z) (x : A) :
  0 <= start <= Z.of_nat (length array) ->
  splice_insert array start x !! Z.to_nat start = Some x.
Proof.
  intros Hs. unfold splice_insert.
  rewrite (proj2 (Z.ltb_ge _ _)) by lia. rewrite Z.min_l by lia.
  rewrite lookup_app_r; rewrite length_take; [|lia].
  by replace (Z.to_nat start - Z.to_nat start `min` length array)%nat
    with 0%nat by lia.
Qed.

Lemma splice_insert_others (array : list nat) (start : Z) (x : nat) :
  filter (fun i => i ≠ x) (splice_insert array start x)
  = filter (fun i => i ≠ x) array.
Proof.
  unfold splice_insert. rewrite filter_app, filter_cons_False by (intros Hx; by apply Hx).
  by rewrite <- filter_app, take_drop.
Qed.

Lemma attachment_ok_keeps (w w' : World) :
  keeps_attachment w w' -> attachment_ok w -> attachment_ok w'.
Proof.
  intros [Ka Kd Kc Kk] [An Aa Ae Ak Ac]. split.
  - by rewrite Kd.
  - intros i. by rewrite Kd, Ka.
  - intros i Hi. rewrite Ka in Hi. destruct (Ae i Hi) as [a Ha].
    specialize (Kk i). rewrite Ha in Kk. inversion Kk. eauto.
  - intros i a' Ha'. specialize (Kk i). rewrite Ha' in Kk.
    inversion Kk as [a a2 Hrel Ha H2|]; subst. symmetry in Ha.
    rewrite Ka, Hrel. by apply Ak.
  - intros i [a' Ha']. rewrite Kc. apply Ac. specialize (Kk i).
    rewrite Ha' in Kk. inversion Kk. eauto.
Qed.

Lemma attachment_ok_newWorld (opt_fps : option Z) (opt_context : option nat) :
  attachment_ok (newWorld opt_fps opt_context).
Proof.
  split; simpl.
  - constructor.
  - intros i. split; [by intros ?%elem_of_nil | by intros ?%elem_of_empty].
  - by intros i ?%elem_of_empty.
  - intros i a Ha. by rewrite lookup_empty in Ha.
  - intros i [a Ha]. by rewrite lookup_empty in Ha.
Qed.

Lemma attachment_ok_Actor_new (w : World) (config_context : option nat) :
  attachment_ok w -> attachment_ok (Actor_new w config_context).1.1.
Proof.
  intros [An Aa Ae Ak Ac]. unfold Actor_new.
  destruct config_context; simpl.
  - split; simpl; try done. intros i Hi. specialize (Ac i Hi). lia.
  - split; simpl; try done.
    + intros i Hi. destruct (decide (actorCount w = i)) as [<-|Hne].
      * rewrite lookup_insert_eq. eauto.
      * rewrite lookup_insert_ne by done. auto.
    + intros i a. destruct (decide (actorCount w = i)) as [<-|Hne].
      * rewrite lookup_insert_eq. intros [= <-]. simpl.
        split; [done|]. intros Hi. specialize (Ac _ (Ae _ Hi)). lia.
      * rewrite lookup_insert_ne by done. apply Ak.
    + intros i. destruct (decide (actorCount w = i)) as [<-|Hne]; [lia|].
      rewrite lookup_insert_ne by done. intros Hi. specialize (Ac i Hi). lia.
Qed.

Lemma attachment_ok_addActor (w : World) (actor : nat) :
  attachment_ok w -> attachment_ok (addActor w actor).1.
Proof.
  intros [An Aa Ae Ak Ac]. unfold addActor.
  destruct (actors w !! actor) as [a|] eqn:Ha; [|done].
  destruct (decide (actor ∈ _actors (engine w))) as [Hin|Hout]; [done|].
  split; simpl.
  - apply NoDup_app. split_and!; [done | | apply NoDup_singleton].
    intros i Hi ->%list_elem_of_singleton. by apply Hout, Aa.
  - intros i. rewrite elem_of_app, list_elem_of_singleton, elem_of_union,
      elem_of_singleton, Aa. tauto.
  - intros i [->%elem_of_singleton | Hi]%elem_of_union.
    + rewrite lookup_insert_eq. eauto.
    + destruct (decide (actor = i)) as [->|Hne];
        [rewrite lookup_insert_eq | rewrite lookup_insert_ne by done];
        eauto.
  - intros i a'. rewrite elem_of_union, elem_of_singleton.
    destruct (decide (actor = i)) as [->|Hne].
    + rewrite lookup_insert_eq. intros [= <-]. simpl. tauto.
    + rewrite lookup_insert_ne by done. intros Ha'.
      rewrite (Ak i a' Ha'). intuition congruence.
  - intros i. destruct (decide (actor = i)) as [->|Hne].
    + intros _. apply Ac. eauto.
    + rewrite lookup_insert_ne by done. apply Ac.
Qed.

Lemma attachment_ok_removeActor (w : World) (actor : nat) :
  attachment_ok w -> attachment_ok (removeActor w actor).1.
Proof.
  intros [An Aa Ae Ak Ac]. unfold removeActor.
  destruct (actors w !! actor) as [a|] eqn:Ha; [|done].
  split; simpl.
  - by apply NoDup_filter.
  - intros i. rewrite list_elem_of_filter, elem_of_difference,
      elem_of_singleton, Aa. tauto.
  - intros i [Hi Hne]%elem_of_difference.
    rewrite lookup_insert_ne; [auto|]. intros ->.
    by apply Hne, elem_of_singleton.
  - intros i a'. rewrite elem_of_difference, elem_of_singleton.
    destruct (decide (actor = i)) as [->|Hne].
    + rewrite lookup_insert_eq. intros [= <-]. simpl. intuition congruence.
    + rewrite lookup_insert_ne by done. intros Ha'.
      rewrite (Ak i a' Ha'). intuition congruence.
  - intros i. destruct (decide (actor = i)) as [->|Hne].
    + intros _. apply Ac. eauto.
    + rewrite lookup_insert_ne by done. apply Ac.
Qed.

Lemma attachment_ok_moveActorToLayer (w : World) (actor : nat) (layer : Z) :
  actor ∈ _actors (engine w) ->
  attachment_ok w -> attachment_ok (moveActorToLayer w actor layer).1.1.
Proof.
  intros Hin [An Aa Ae Ak Ac]. unfold moveActorToLayer.
  destruct (layer <? _); [|done].
  destruct (actors w !! actor) as [a|] eqn:Ha; [|done].
  assert (Hperm : splice_insert
                    (filter (fun i => i ≠ actor) (_drawOrder (engine w)))
                    layer actor ≡ₚ _drawOrder (engine w)).
  { rewrite splice_insert_Permutation.
    apply NoDup_Permutation; [|done|].
    - constructor; [|by apply NoDup_filter].
      rewrite list_elem_of_filter. tauto.
    - intros i. rewrite elem_of_cons, list_elem_of_filter.
      destruct (decide (i = actor)) as [->|Hne]; [|tauto].
      split; [|tauto]. intros _. by apply Aa. }
  split; simpl; try done.
  - by rewrite Hperm.
  - intros i. by rewrite Hperm.
Qed.

Lemma attachment_ok_moveToLayer (w : World) (actor : nat) (layer : Z) :
  attachment_ok w -> attachment_ok (moveToLayer w actor layer).1.1.
Proof.
  intros Hw. unfold moveToLayer.
  destruct (actors w !! actor) as [a|] eqn:Ha; [|done].
  destruct (kapi a) eqn:Hk; [|done].
  apply attachment_ok_moveActorToLayer; [|done].
  by apply (att_kapi w Hw actor a).
Qed.

Lemma keeps_attachment_call (w : World) (c : Call) :
  match c with
  | NewActor _ | AddActor _ | RemoveActor _ | MoveActorToLayer _ _
  | MoveToLayer _ _ => True
  | _ => keeps_attachment w (call w c)
  end.
Proof.
  destruct c; simpl; try done.
  - apply keeps_content_engineCall.
  - apply keeps_content_playFrom.
  - apply keeps_content_updateFn.
  - apply keeps_all_render.
  - apply keeps_all_render.
  - apply keeps_all_bind.
  - apply keeps_all_unbind.
  - apply keeps_engine_actorCall.
  - apply keeps_engine_modifyKeyframe.
  - apply keeps_engine_removeAllKeyframeProperties.
  - apply keeps_engine_copyProperties.
  - apply keeps_engine_wait.
  - apply keeps_all_onActor. intros a. apply calculatePosition_structure.
Qed.

Lemma attachment_ok_call (w : World) (c : Call) :
  match c with
  | MoveActorToLayer actor _ => actor ∈ _actors (engine w)
  | _ => True
  end ->
  attachment_ok w -> attachment_ok (call w c).
Proof.
  intros Hc Hw. pose proof (keeps_attachment_call w c) as Hk.
  destruct c; try (by eapply attachment_ok_keeps); simpl.
  - by apply attachment_ok_Actor_new.
  - by apply attachment_ok_addActor.
  - by apply attachment_ok_removeActor.
  - by apply attachment_ok_moveActorToLayer.
  - by apply attachment_ok_moveToLayer.
Qed.

(** With a consistent attachment every drawn id has its actor. *)
Lemma attachment_ok_drawOrder (w : World) :
  attachment_ok w -> drawOrder_attached w.
Proof.
  intros [An Aa Ae Ak Ac]. apply Forall_forall. intros i Hi.
  unfold getActor. apply Aa in Hi. rewrite decide_True by done. auto.
Qed.

End EngineInvariants.

Section ScheduleInvariant.
Context `{Shifty}.

Lemma one_update_bounded (w : World) :
  one_update_scheduled w -> timers_bounded w.
Proof.
  unfold one_update_scheduled, timers_bounded. intros ->.
  destruct (decide (_playState (engine w) = PLAYING)); [|by left].
  destruct (_loopId (engine w)) as [timer|]; simpl; eauto.
Qed.

Lemma cancelLoop_timers (w : World) :
  timers_bounded w -> timers (cancelLoop w) = ∅.
Proof.
  unfold cancelLoop. intros [Hempty | (timer & Hl & Ht)].
  - destruct (_loopId (engine w)); simpl; [|done]. rewrite Hempty.
    apply empty_difference_L.
  - rewrite Hl. simpl. rewrite Ht. apply difference_diag_L.
Qed.

Lemma timers_bounded_playState (w : World) (st : playState) :
  timers_bounded w ->
  timers_bounded (with_engine_of w (with_playState (engine w) st)).
Proof. done. Qed.

Lemma one_update_keeps (w w' : World) :
  keeps_schedule w w' -> one_update_scheduled w -> one_update_scheduled w'.
Proof.
  intros [Kt Kp Kl]. unfold one_update_scheduled. by rewrite Kt, Kp, Kl.
Qed.

Lemma one_update_play (w : World) (opt_howManyTimes : option Z) (now : Z) :
  timers_bounded w -> one_update_scheduled (play w opt_howManyTimes now).
Proof.
  intros Hw. unfold one_update_scheduled, play. simpl.
  rewrite (cancelLoop_timers w Hw). apply (right_id_L ∅ (∪)).
Qed.

Lemma one_update_stop (w : World) :
  timers_bounded w -> one_update_scheduled (stop w).
Proof.
  intros Hw. unfold one_update_scheduled. rewrite playState_stop.
  unfold stop. simpl. by apply (cancelLoop_timers (with_engine_of w _)).
Qed.

Lemma one_update_pause (w : World) (now : Z) :
  one_update_scheduled w -> one_update_scheduled (pause w now).
Proof.
  intros Hw. unfold one_update_scheduled. rewrite playState_pause.
  unfold pause. destruct (decide (_playState (engine w) = PAUSED)) as [Hp|Hp].
  - unfold one_update_scheduled in Hw. by rewrite Hp in Hw.
  - simpl. apply (cancelLoop_timers (with_engine_of w _)).
    by apply one_update_bounded in Hw.
Qed.

Lemma one_update_engineCall (w : World) (c : EngineCall) :
  one_update_scheduled w -> one_update_scheduled (engineCall w c).
Proof.
  intros Hw. destruct c; simpl.
  - by apply one_update_play, one_update_bounded.
  - by apply one_update_pause.
  - by apply one_update_stop, one_update_bounded.
Qed.

Lemma one_update_loopTimestamp (w : World) (t : option Z) :
  one_update_scheduled w ->
  one_update_scheduled (with_engine_of w (with_loopTimestamp (engine w) t)).
Proof. intros Hw. exact Hw. Qed.

Lemma one_update_playFrom (w : World) (ms : Z) (opt_howManyTimes : option Z)
    (now now' : Z) :
  one_update_scheduled w ->
  one_update_scheduled (playFrom w ms opt_howManyTimes now now').
Proof.
  intros Hw.
  exact (one_update_loopTimestamp (play w opt_howManyTimes now) _
           (one_update_play w opt_howManyTimes now (one_update_bounded w Hw))).
Qed.

Lemma one_update_updateFn (w : World) (timer : nat) (now : Z) :
  one_update_scheduled w -> one_update_scheduled (updateFn w timer now).1.
Proof.
  intros Hw. unfold updateFn.
  destruct (decide (timer ∈ timers w)) as [Hin|Hout]; [|done].
  assert (Hplaying : _playState (engine w) = PLAYING).
  { unfold one_update_scheduled in Hw.
    destruct (decide (_playState (engine w) = PLAYING)); [done|].
    rewrite Hw in Hin. by apply elem_of_empty in Hin. }
  assert (Hone : timers w = {[timer]}).
  { unfold one_update_scheduled in Hw. rewrite decide_True in Hw by done.
    destruct (_loopId (engine w)) as [t|]; simpl in Hw; rewrite Hw in Hin.
    - apply elem_of_singleton in Hin. by subst.
    - by apply elem_of_empty in Hin. }
  set (w1 := tick (with_timers w (timers w ∖ {[timer]}) (timerCount w))).
  assert (Hw1 : one_update_scheduled w1).
  { unfold one_update_scheduled, w1. simpl. rewrite Hplaying, Hone.
    rewrite decide_True by done. simpl.
    rewrite difference_diag_L. apply (right_id_L ∅ (∪)). }
  unfold renderCurrentMillisecond, renderMillisecond.
  pose proof (keeps_all_render w1
                (calculateLoopPosition (engine w1)
                   (calculateTimeSinceStart w1 now)
                   (determineCurrentLoopIteration (engine w1)
                      (calculateTimeSinceStart w1 now)))) as (_ & _ & Hk & _).
  destruct (render w1 _) as [w2 [|e]]; simpl in *.
  - unfold updatePlayState. destruct (isAnimationComplete _ _).
    + eapply one_update_keeps; [|apply one_update_stop]; [done|].
      eapply one_update_bounded, one_update_keeps; eauto.
    + by eapply one_update_keeps.
  - by eapply one_update_keeps.
Qed.

Lemma keeps_schedule_call (w : World) (c : Call) :
  match c with
  | Control _ | PlayFrom _ _ _ _ | Update _ _ => True
  | _ => keeps_schedule w (call w c)
  end.
Proof.
  destruct c as [ctx | actor | actor | actor layer | actor layer | c
                | ms n now now' | timer now | ms | | nm h | nm h | actor c
                | actor when sm em | actor | actor copyTo copyFrom
                | actor until | actor ms]; simpl; try done.
  - unfold Actor_new. by destruct ctx.
  - unfold addActor. destruct (actors w !! actor); [|done].
    by destruct (decide _).
  - unfold removeActor. by destruct (actors w !! actor).
  - unfold moveActorToLayer. destruct (layer <? _); [|done].
    by destruct (actors w !! actor).
  - unfold moveToLayer, moveActorToLayer.
    destruct (actors w !! actor) as [a|]; [|done].
    destruct (kapi a); [|done]. by destruct (layer <? _).
  - by destruct (keeps_all_render w ms) as (_ & _ & ? & _).
  - unfold redraw. by destruct (keeps_all_render w (_lastRenderedMillisecond (engine w))) as (_ & _ & ? & _).
  - by destruct (keeps_all_bind w nm h) as (_ & _ & ? & _).
  - by destruct (keeps_all_unbind w nm h) as (_ & _ & ? & _).
  - exact (proj2 (keeps_engine_actorCall _ _)).
  - exact (proj2 (keeps_engine_modifyKeyframe _ _ _ _ _)).
  - exact (proj2 (keeps_engine_removeAllKeyframeProperties _ _)).
  - exact (proj2 (keeps_engine_copyProperties _ _ _ _)).
  - exact (proj2 (keeps_engine_wait _ _ _)).
Qed.

Lemma one_update_call (w : World) (c : Call) :
  one_update_scheduled w -> one_update_scheduled (call w c).
Proof.
  intros Hw. pose proof (keeps_schedule_call w c) as Hk.
  destruct c; try (by eapply one_update_keeps); simpl.
  - by apply one_update_engineCall.
  - by apply one_update_playFrom.
  - by apply one_update_updateFn.
Qed.

End ScheduleInvariant.

Section LengthInvariant.
Context `{Shifty}.

Lemma getEnd_nonneg (a : Actor) : 0 <= getEnd a.
Proof.
  unfold getEnd.
  apply (map_fold_weak_ind (fun latest _ => 0 <= latest)); [done|].
  intros nm track tracks latest _ IH. destruct (last track) as [r|]; [|done].
  destruct (latest <? millisecondOf a r) eqn:Hlt; [|done].
  apply Z.ltb_lt in Hlt. lia.
Qed.

Lemma length_ok_recalculate (w : World) :
  length_ok (_recalculateAnimationLength w).
Proof.
  unfold length_ok, animationLength, _recalculateAnimationLength. simpl.
  destruct (omap _ _) as [|x rest] eqn:Hends; [by left|]. right.
  destruct (Math_max_nonempty (x :: rest)) as (m & Hm & Hin & _); [done|].
  exists m. split; [done|]. rewrite <- Hends in Hin.
  apply list_elem_of_omap in Hin as (i & _ & Hi).
  destruct (actors w !! i) as [a|]; [|done]. injection Hi as <-.
  apply getEnd_nonneg.
Qed.

Lemma length_ok_keeps (w w' : World) :
  keeps_length w w' -> length_ok w -> length_ok w'.
Proof. unfold keeps_length, length_ok, animationLength. by intros ->. Qed.

Lemma length_ok_engine (w w' : World) :
  engine w' = engine w -> length_ok w -> length_ok w'.
Proof. unfold length_ok, animationLength. by intros ->. Qed.

Lemma length_ok_finish (actor : nat) (w : World) :
  length_ok w ->
  length_ok
    (ret w >>> recalculateThroughActor actor
     >>> fun w2 => ret (onActor invalidatePropertyCache actor w2)).1.
Proof.
  intros Hw. simpl.
  assert (Hrec : length_ok (recalculateThroughActor actor w).1).
  { unfold recalculateThroughActor.
    destruct (actors w !! actor) as [a|]; [|done].
    destruct (kapi a); [apply length_ok_recalculate | done]. }
  by destruct (recalculateThroughActor actor w) as [w1 [|e]].
Qed.

Lemma length_ok_keyframe (w : World) (actor : nat) (when : Z)
    (position : list (string * Value)) (opt_easing : Easing) :
  length_ok w -> length_ok (keyframe w actor when position opt_easing).1.
Proof.
  intros Hw. unfold keyframe. destruct (actors w !! actor) as [a|]; [|done].
  destruct (keyframeProperties a (idCounter w) when position opt_easing)
    as [a' uid'].
  by apply (length_ok_finish actor
              (with_idCounter (with_actors_of w (<[actor:=a']> (actors w)))
                 uid')).
Qed.

Lemma length_ok_removeKeyframe (w : World) (actor : nat) (when : Z) :
  length_ok w -> length_ok (removeKeyframe w actor when).1.
Proof.
  intros Hw. unfold removeKeyframe.
  destruct (actors w !! actor) as [a|]; [|done].
  by apply (length_ok_finish actor (with_actors_of w _)).
Qed.

Lemma length_ok_call (w : World) (c : Call) :
  length_ok w -> length_ok (call w c).
Proof.
  intros Hw.
  destruct c as [ctx | actor | actor | actor layer | actor layer | c
                | ms n now now' | timer now | ms | | nm h | nm h | actor c
                | actor when sm em | actor | actor copyTo copyFrom
                | actor until | actor ms]; simpl.
  - unfold Actor_new. by destruct ctx.
  - unfold addActor. destruct (actors w !! actor); [|done].
    by destruct (decide _).
  - unfold removeActor. destruct (actors w !! actor); [|done].
    apply length_ok_recalculate.
  - unfold moveActorToLayer. destruct (layer <? _); [|done].
    by destruct (actors w !! actor).
  - unfold moveToLayer, moveActorToLayer.
    destruct (actors w !! actor) as [a|]; [|done].
    destruct (kapi a); [|done]. by destruct (layer <? _).
  - eapply length_ok_keeps; [apply keeps_content_engineCall | done].
  - eapply length_ok_keeps; [apply keeps_content_playFrom | done].
  - eapply length_ok_keeps; [apply keeps_content_updateFn | done].
  - eapply length_ok_keeps; [apply keeps_all_render | done].
  - eapply length_ok_keeps; [apply keeps_all_render | done].
  - eapply length_ok_keeps; [apply keeps_all_bind | done].
  - eapply length_ok_keeps; [apply keeps_all_unbind | done].
  - destruct c as [when position opt_easing | when | property index m];
      unfold actorCall; simpl.
    + by apply length_ok_keyframe.
    + by apply length_ok_removeKeyframe.
    + unfold modifyKeyframeProperty.
      destruct (actors w !! actor) as [a|]; [|done].
      by destruct (getKeyframeProperty a property index), m.
  - unfold modifyKeyframe. destruct (actors w !! actor) as [a|]; [|done].
    by destruct (map_fold _ _ _).
  - unfold removeAllKeyframeProperties.
    destruct (actors w !! actor) as [a|]; [|done].
    by apply length_ok_removeKeyframe.
  - unfold copyProperties. destruct (actors w !! actor) as [a|]; [|done].
    by apply length_ok_keyframe.
  - unfold wait. destruct (actors w !! actor) as [a|]; [|done].
    destruct (until <=? getEnd a); [done|].
    destruct (latestAtEnd a) as [latest|]; [|done].
    apply andThen_invariant; [apply andThen_invariant|];
      [by apply length_ok_removeKeyframe | |];
      intros w1 Hw1; by apply length_ok_keyframe.
  - done.
Qed.

End LengthInvariant.

(** ** Every world a program can reach *)

Section Reachable.
Context `{Shifty}.

Lemma invariant_calls (P : World -> Prop) (w : World) (cs : list Call) :
  (forall w' c, P w' -> P (call w' c)) -> P w -> P (calls w cs).
Proof.
  intros Hstep. unfold calls. revert w.
  induction cs as [|c cs IH]; intros w Hw; simpl; auto.
Qed.

Lemma world_sorted_calls (w : World) (cs : list Call) :
  world_sorted w -> world_sorted (calls w cs).
Proof. apply invariant_calls. intros w' c. apply world_sorted_call. Qed.

Lemma world_wf_calls (w : World) (cs : list Call) :
  world_wf w -> world_wf (calls w cs).
Proof. apply invariant_calls. intros w' c. apply world_wf_call. Qed.

Lemma one_update_calls (w : World) (cs : list Call) :
  one_update_scheduled w -> one_update_scheduled (calls w cs).
Proof. apply invariant_calls. intros w' c. apply one_update_call. Qed.

Lemma length_ok_calls (w : World) (cs : list Call) :
  length_ok w -> length_ok (calls w cs).
Proof. apply invariant_calls. intros w' c. apply length_ok_call. Qed.

Lemma attachment_ok_calls (w : World) (cs : list Call) :
  Forall (fun c => isMoveActorToLayer c = false) cs ->
  attachment_ok w -> attachment_ok (calls w cs).
Proof.
  intros Hcs. unfold calls. revert w.
  induction Hcs as [|c cs Hc Hcs IH]; intros w Hw; simpl; [done|].
  apply IH, attachment_ok_call; [|done]. by destruct c.
Qed.

Lemma world_wf_newWorld (opt_fps : option Z) (opt_context : option nat) :
  world_wf (newWorld opt_fps opt_context).
Proof. apply map_Forall_empty. Qed.

Lemma length_ok_newWorld (opt_fps : option Z) (opt_context : option nat) :
  length_ok (newWorld opt_fps opt_context).
Proof. right. exists 0. by split. Qed.

End Reachable.

(** X8.  After any sequence of calls on a new engine and its actors (the
    calls that throw included), every track of every actor is sorted
    ascending by millisecond and holds each of its keyframe property objects
    once, each carrying the track's name, and the registry
    [_keyframeProperties] holds exactly the objects of the tracks, each
    once. *)
Theorem reachable_tracks_and_registry `{Shifty} (opt_fps : option Z)
    (opt_context : option nat) (cs : list Call) :
  world_sorted (calls (newWorld opt_fps opt_context) cs) /\
  world_wf (calls (newWorld opt_fps opt_context) cs).
Proof.
  split; [apply world_sorted_calls, newWorld_sorted
         | apply world_wf_calls, world_wf_newWorld].
Qed.

(** X9.  After any sequence of calls on a new engine, the updates that are
    scheduled and not cancelled are none, unless the engine is playing, and
    then the one [_loopId] names; an update that was cancelled, or that runs
    while the engine is not playing, changes nothing. *)
Theorem reachable_one_update `{Shifty} (opt_fps : option Z)
    (opt_context : option nat) (cs : list Call) :
  one_update_scheduled (calls (newWorld opt_fps opt_context) cs) /\
  forall timer now,
    (_playState (engine (calls (newWorld opt_fps opt_context) cs)) ≠ PLAYING
     \/ _loopId (engine (calls (newWorld opt_fps opt_context) cs)) ≠ Some timer)
    ->
    updateFn (calls (newWorld opt_fps opt_context) cs) timer now
    = (calls (newWorld opt_fps opt_context) cs, Returned).
Proof.
  assert (Hinv : one_update_scheduled (calls (newWorld opt_fps opt_context) cs))
    by (by apply one_update_calls).
  split; [done|]. intros timer now Hnot. unfold updateFn.
  destruct (decide (timer ∈ timers _)) as [Hin|]; [|done].
  unfold one_update_scheduled in Hinv. rewrite Hinv in Hin.
  destruct (decide (_playState _ = PLAYING)).
  - destruct (_loopId _) as [t|]; simpl in Hin.
    + apply elem_of_singleton in Hin. subst. by destruct Hnot.
    + by apply elem_of_empty in Hin.
  - by apply elem_of_empty in Hin.
Qed.

(** X10.  After any sequence of calls on a new engine the stored animation
    length is an integer that is 0 or more, or it is [-Infinity]. *)
Theorem reachable_length `{Shifty} (opt_fps : option Z)
    (opt_context : option nat) (cs : list Call) :
  length_ok (calls (newWorld opt_fps opt_context) cs).
Proof. apply length_ok_calls, length_ok_newWorld. Qed.

(** X11.  After any sequence of calls without [Kapi.moveActorToLayer] the
    draw order lists exactly the attached actors, each once, an actor has its
    [kapi] exactly when the engine holds it, and [render] returns at every
    position. *)
Theorem reachable_attachment `{Shifty} (opt_fps : option Z)
    (opt_context : option nat) (cs : list Call) :
  Forall (fun c => isMoveActorToLayer c = false) cs ->
  attachment_ok (calls (newWorld opt_fps opt_context) cs) /\
  forall ms, (render (calls (newWorld opt_fps opt_context) cs) ms).2 = Returned.
Proof.
  intros Hcs.
  assert (Hinv : attachment_ok (calls (newWorld opt_fps opt_context) cs))
    by (apply attachment_ok_calls; [done | apply attachment_ok_newWorld]).
  split; [done|]. intros ms.
  destruct (render_returns _ ms (attachment_ok_drawOrder _ Hinv))
    as (w' & -> & _).
  done.
Qed.

Section ReachableExamples.
Local Existing Instance linearShifty.

Lemma reachable_attachment_witness :
  Forall (fun c => isMoveActorToLayer c = false)
    [NewActor None; NewActor None; AddActor 0%nat; AddActor 1%nat;
     MoveToLayer 1%nat 0; RemoveActor 0%nat] /\
  attachment_ok
    (calls (newWorld None None)
       [NewActor None; NewActor None; AddActor 0%nat; AddActor 1%nat;
        MoveToLayer 1%nat 0; RemoveActor 0%nat]).
Proof.
  assert (Hcs : Forall (fun c => isMoveActorToLayer c = false)
                  [NewActor None; NewActor None; AddActor 0%nat;
                   AddActor 1%nat; MoveToLayer 1%nat 0; RemoveActor 0%nat])
    by (repeat constructor).
  split; [exact Hcs | exact (proj1 (reachable_attachment None None _ Hcs))].
Defined.

End ReachableExamples.

(** ** Layers *)

Section Layers.
Context `{Shifty}.

Lemma filter_ne_Permutation (l : list nat) (x : nat) :
  NoDup l -> x ∈ l -> x :: filter (fun i => i ≠ x) l ≡ₚ l.
Proof.
  intros Hnd Hin. apply NoDup_Permutation; [|done|].
  - constructor; [|by apply NoDup_filter]. rewrite list_elem_of_filter. tauto.
  - intros i. rewrite elem_of_cons, list_elem_of_filter.
    destruct (decide (i = x)) as [->|Hne]; tauto.
Qed.

(** The loop of [calculateActorPositions] throws at an id that has no actor
    under [_actors]. *)
Lemma calculateActorPositions_from_throws (order : list nat) (ms : number)
    (w : World) (i : nat) :
  i ∈ order -> i ∉ _actors (engine w) ->
  (calculateActorPositions_from order ms w).2 = Thrown TypeError.
Proof.
  revert w. induction order as [|j rest IH]; intros w Hin Hout; simpl.
  - by apply elem_of_nil in Hin.
  - destruct (getActor w j) as [a|] eqn:Hj; [|done].
    apply IH; [|done]. apply elem_of_cons in Hin as [->|Hin]; [|done].
    unfold getActor in Hj. by rewrite decide_False in Hj.
Qed.

End Layers.

(** X12.  [moveActorToLayer] with a layer that is not below the length of the
    draw order changes nothing and returns [undefined].  For an attached
    actor and a layer from 0 up to the length, it returns the actor, the draw
    order is a permutation of what it was with the actor at index [layer],
    and the other actors keep their relative order. *)
Theorem moveActorToLayer_attached `{Shifty} (w : World) (actor : nat)
    (layer : Z) :
  attachment_ok w -> actor ∈ _actors (engine w) -> 0 <= layer ->
  (Z.of_nat (length (_drawOrder (engine w))) <= layer ->
     moveActorToLayer w actor layer = (w, None, Returned)) /\
  (layer < Z.of_nat (length (_drawOrder (engine w))) ->
     (moveActorToLayer w actor layer).2 = Returned /\
     (moveActorToLayer w actor layer).1.2 = Some actor /\
     _drawOrder (engine (moveActorToLayer w actor layer).1.1)
       ≡ₚ _drawOrder (engine w) /\
     _drawOrder (engine (moveActorToLayer w actor layer).1.1)
       !! Z.to_nat layer = Some actor /\
     filter (fun i => i ≠ actor)
       (_drawOrder (engine (moveActorToLayer w actor layer).1.1))
     = filter (fun i => i ≠ actor) (_drawOrder (engine w))).
Proof.
  intros Hw Hin Hlayer. unfold moveActorToLayer. split; intros Hlen.
  - by rewrite (proj2 (Z.ltb_ge _ _)) by lia.
  - rewrite (proj2 (Z.ltb_lt _ _)) by lia.
    destruct (att_exist w Hw actor Hin) as [a ->]. simpl.
    pose proof (filter_ne_Permutation _ actor (att_NoDup w Hw)
                  (proj2 (att_actors w Hw actor) Hin)) as Hperm.
    split_and!; [done | done | | |].
    + by rewrite splice_insert_Permutation.
    + apply splice_insert_lookup.
      apply Permutation_length in Hperm. simpl in Hperm. lia.
    + rewrite splice_insert_others. by rewrite list_filter_filter_l.
Qed.

(** X13.  [Kapi.moveActorToLayer] does not check that the engine holds the
    actor: for an actor that is not attached and a layer below the length of
    the draw order it returns the actor, and every later [render] throws a
    [TypeError] at the id without an actor. *)
Theorem moveActorToLayer_detached `{Shifty} (w : World) (actor : nat)
    (layer : Z) (ms : number) :
  is_Some (actors w !! actor) -> actor ∉ _actors (engine w) ->
  layer < Z.of_nat (length (_drawOrder (engine w))) ->
  (moveActorToLayer w actor layer).1.2 = Some actor /\
  (moveActorToLayer w actor layer).2 = Returned /\
  (render (moveActorToLayer w actor layer).1.1 ms).2 = Thrown TypeError.
Proof.
  intros [a Ha] Hout Hlen. unfold moveActorToLayer.
  rewrite (proj2 (Z.ltb_lt _ _)) by lia. rewrite Ha. simpl.
  split_and!; [done | done|].
  unfold render, calculateActorPositions.
  pose proof (calculateActorPositions_from_throws
                (_drawOrder
                   (engine
                      (with_drawOrder w
                         (splice_insert
                            (filter (fun i => i ≠ actor)
                               (_drawOrder (engine w))) layer actor))))
                ms
                (with_drawOrder w
                   (splice_insert
                      (filter (fun i => i ≠ actor) (_drawOrder (engine w)))
                      layer actor)) actor) as Hthrow.
  destruct (calculateActorPositions_from _ _ _) as [w1 c]. simpl in *.
  rewrite Hthrow; [done | | done].
  rewrite splice_insert_Permutation. constructor.
Qed.

Section LayerExamples.
Local Existing Instance linearShifty.

Lemma moveActorToLayer_attached_witness :
  (attachment_ok
     (calls (newWorld None None)
        [NewActor None; AddActor 0%nat; NewActor None; AddActor 1%nat]) /\
   1%nat ∈ _actors
             (engine
                (calls (newWorld None None)
                   [NewActor None; AddActor 0%nat; NewActor None;
                    AddActor 1%nat])) /\
   0 <= 0) /\
  _drawOrder
    (engine
       (moveActorToLayer
          (calls (newWorld None None)
             [NewActor None; AddActor 0%nat; NewActor None; AddActor 1%nat])
          1%nat 0).1.1)
    !! Z.to_nat 0 = Some 1%nat.
Proof.
  set (w := calls (newWorld None None)
              [NewActor None; AddActor 0%nat; NewActor None; AddActor 1%nat]).
  assert (Hw : attachment_ok w).
  { apply attachment_ok_calls; [repeat constructor|].
    apply attachment_ok_newWorld. }
  assert (Hin : 1%nat ∈ _actors (engine w)).
  { apply (bool_decide_unpack _). by vm_compute. }
  split; [split_and!; [exact Hw | exact Hin | lia]|].
  destruct (moveActorToLayer_attached w 1%nat 0 Hw Hin ltac:(lia))
    as [_ Hmove].
  exact (proj1 (proj2 (proj2 (proj2 (Hmove ltac:(by vm_compute)))))).
Defined.

Lemma moveActorToLayer_detached_witness :
  (is_Some
     (actors
        (calls (newWorld None None)
           [NewActor None; AddActor 0%nat; NewActor None]) !! 1%nat) /\
   1%nat ∉ _actors
             (engine
                (calls (newWorld None None)
                   [NewActor None; AddActor 0%nat; NewActor None])) /\
   0 < Z.of_nat
         (length
            (_drawOrder
               (engine
                  (calls (newWorld None None)
                     [NewActor None; AddActor 0%nat; NewActor None])))))
  /\
  (render
     (moveActorToLayer
        (calls (newWorld None None)
           [NewActor None; AddActor 0%nat; NewActor None]) 1%nat 0).1.1
     (Fin 0)).2 = Thrown TypeError.
Proof.
  set (w := calls (newWorld None None)
              [NewActor None; AddActor 0%nat; NewActor None]).
  assert (H1 : is_Some (actors w !! 1%nat)).
  { apply (bool_decide_unpack _). by vm_compute. }
  assert (H2 : 1%nat ∉ _actors (engine w)).
  { apply (bool_decide_unpack _). by vm_compute. }
  assert (H3 : 0 < Z.of_nat (length (_drawOrder (engine w))))
    by (by vm_compute).
  split; [by split_and!|].
  exact (proj2 (proj2 (moveActorToLayer_detached w 1%nat 0 (Fin 0) H1 H2 H3))).
Defined.

End LayerExamples.
